(** * WaveformReader::next: a shallow embedding and its specification

    The development embeds [WaveformReader::next] (src/src/WaveformReader.cpp)
    and the constructor of [WaveformReader] (src/src/WaveformReader.hpp).

    - C++ integers are [Z] with the conversions written out ([to_int],
      [to_unsigned]); the platform is LP64 ([int] has 32 bits, [ssize_t] 64).
    - The numpy array behind [mutable_unchecked<5>()] is a shape together
      with a store of elements addressed by five indices; it has five axes
      and is writeable, as the accessor requires.  The accessor does no
      bounds checking: an access outside the declared shape reaches whatever
      memory the strides lead to, inside or outside the array; the behaviour
      is then undefined, and is [None] here.
    - The objects the innermost loop obtains with [getGraph] and [makeWf]
      and releases with [delete] live in a heap of objects, so that a leak,
      a double free or a read after free would show.
    - [AnitaDataset], [UsefulAnitaEvent], [TGraph], [AnalysisWaveform] and
      their member functions belong to external libraries: they are the
      operations of the class [AnitaLibrary]. *)

From stdpp Require Import base numbers option list gmap.

Local Open Scope Z_scope.

(** ** C++ integer conversions *)

Definition INT_MAX : Z := 2 ^ 31 - 1.

(** Conversion to [int] (two's complement, 32 bits). *)
Definition to_int (z : Z) : Z := (z + 2 ^ 31) `mod` 2 ^ 32 - 2 ^ 31.

(** Conversion to [unsigned int]. *)
Definition to_unsigned (z : Z) : Z := z `mod` 2 ^ 32.

(** ** The enumerations of AnitaConventions.h *)

Module AnitaRing.

Inductive AnitaRing_t : Type := kTopRing | kMiddleRing | kBottomRing.

(** Modelled from the spec: the integer values of the enumerators are declared
    in AnitaConventions.h, which is not part of the repository; the spec fixes
    the ring axis as top, middle, bottom at indices 0, 1, 2. *)
Definition value (ring : AnitaRing_t) : Z :=
  match ring with kTopRing => 0 | kMiddleRing => 1 | kBottomRing => 2 end.

Definition of_value (k : Z) : option AnitaRing_t :=
  if decide (k = 0) then Some kTopRing
  else if decide (k = 1) then Some kMiddleRing
  else if decide (k = 2) then Some kBottomRing
  else None.

#[global] Instance AnitaRing_eq_dec : EqDecision AnitaRing_t.
Proof. solve_decision. Defined.

End AnitaRing.

Module AnitaPol.

Inductive AnitaPol_t : Type := kHorizontal | kVertical.

(** Modelled from the spec: the integer values of the enumerators are declared
    in AnitaConventions.h, which is not part of the repository; the spec fixes
    the polarization axis as horizontal, vertical at indices 0, 1. *)
Definition value (pol : AnitaPol_t) : Z :=
  match pol with kHorizontal => 0 | kVertical => 1 end.

Definition of_value (q : Z) : option AnitaPol_t :=
  if decide (q = 0) then Some kHorizontal
  else if decide (q = 1) then Some kVertical
  else None.

#[global] Instance AnitaPol_eq_dec : EqDecision AnitaPol_t.
Proof. solve_decision. Defined.

End AnitaPol.

Import AnitaRing AnitaPol.

(** ** The external collaborators

    Every operation is a pure observation of the object it is called on.  A
    value is given in the type of the variable the reader stores it in:
    [eventNumber] as the [int] that [evno] receives, [GetN] as the [int]
    handed to [std::min], [GetY] as the [float] stored in the array, and
    [getCurrRun] as the [unsigned int] compared with and assigned to [run_]. *)

Class AnitaLibrary (float : Type) : Type := {
  AnitaDataset : Type;
  UsefulAnitaEvent : Type;
  TGraph : Type;
  TGraphAligned : Type;
  AnalysisWaveform : Type;
  (** [AnitaDataset(run, false, WaveCalType::kDefault, ANITA_ROOT_DATA, kNoBlinding)] *)
  AnitaDataset_new : Z → AnitaDataset;
  (** [header()->eventNumber] *)
  header_eventNumber : AnitaDataset → Z;
  (** [useful()] *)
  useful : AnitaDataset → UsefulAnitaEvent;
  (** [next()] of the dataset: load the next event *)
  AnitaDataset_next : AnitaDataset → AnitaDataset;
  getCurrRun : AnitaDataset → Z;
  getGraph : UsefulAnitaEvent → AnitaRing_t → Z → AnitaPol_t → TGraph;
  makeWf : TGraph → bool → AnalysisWaveform;
  even : AnalysisWaveform → TGraphAligned;
  GetN : TGraphAligned → Z;
  GetY : TGraphAligned → Z → float
}.

(** ** The array accessor *)

Definition index : Type := Z * Z * Z * Z * Z.

Record NumpyArray (float : Type) : Type := mkArray {
  shape : Z → Z;
  data : index → float
}.

Arguments mkArray {float} shape data.
Arguments shape {float} _ _.
Arguments data {float} _ _.

Definition in_shape (sh : Z → Z) (j : index) : Prop :=
  match j with
  | (e, p, k, q, x) =>
      (0 ≤ e < sh 0) ∧ (0 ≤ p < sh 1) ∧ (0 ≤ k < sh 2) ∧ (0 ≤ q < sh 3) ∧ (0 ≤ x < sh 4)
  end.

#[global] Instance in_shape_dec sh j : Decision (in_shape sh j).
Proof. destruct j as [[[[e p] k] q] x]; simpl; apply _. Defined.

(** [r(event, phi, ring, pol, sample) = v] *)
Definition unchecked_set {float} (r : NumpyArray float) (j : index) (v : float)
  : option (NumpyArray float) :=
  if decide (in_shape (shape r) j)
  then Some (mkArray (shape r) (λ j', if decide (j' = j) then v else data r j'))
  else None.

(** ** Loops *)

(** A loop over the elements of [l] in order, the body acting on a state and
    possibly undefined. *)
Fixpoint for_each {A S : Type} (l : list A) (body : A → S → option S) (s : S) : option S :=
  match l with
  | [] => Some s
  | x :: l' => s' ← body x s; for_each l' body s'
  end.

(** What a loop has done, from what each step does: [nothing] for no step,
    [after] for a step following others. *)
Fixpoint done_of {A C : Type} (nothing : C) (after : C → C → C)
    (l : list A) (c : A → C) : C :=
  match l with
  | [] => nothing
  | x :: l' => after (done_of nothing after l' c) (c x)
  end.

Section Reader.

Context {float : Type} `{Lib : AnitaLibrary float}.

(** ** The heap of per-channel objects *)

Inductive Obj : Type :=
| ObjGraph (g : TGraph)
| ObjWaveform (w : AnalysisWaveform).

Abbreviation Heap := (gmap nat Obj).

(** An allocation returns an address that is not in use. *)
Definition new_obj (o : Obj) (h : Heap) : nat * Heap :=
  let p := fresh (dom h) in (p, <[p := o]> h).

(** [delete p]: freeing what is not allocated is undefined. *)
Definition delete_obj (p : nat) (h : Heap) : option Heap :=
  match h !! p with
  | Some _ => Some (delete p h)
  | None => None
  end.

Definition read_graph (p : nat) (h : Heap) : option TGraph :=
  match h !! p with
  | Some (ObjGraph g) => Some g
  | _ => None
  end.

Definition read_waveform (p : nat) (h : Heap) : option AnalysisWaveform :=
  match h !! p with
  | Some (ObjWaveform w) => Some w
  | _ => None
  end.

(** The memory [next] acts on: the caller's array and the heap. *)
Record State : Type := mkState {
  array : NumpyArray float;
  heap : Heap
}.

(** ** The reader *)

Record WaveformReader : Type := mkReader {
  run_ : Z;
  dataset_ : AnitaDataset
}.

(** [WaveformReader(const int run) : run_(run), dataset_(run, ...)],
    [run_] being an [unsigned int]. *)
Definition WaveformReader_new (run : Z) : WaveformReader :=
  mkReader (to_unsigned run) (AnitaDataset_new run).

(** The body of the polarization loop (WaveformReader.cpp, lines 54-74). *)
Definition fill_channel (usefulEvent : UsefulAnitaEvent) (event phi : Z)
    (ring : AnitaRing_t) (pol : AnitaPol_t) (s : State) : option State :=
  let '(gr, h1) := new_obj (ObjGraph (getGraph usefulEvent ring phi pol)) (heap s) in
  g ← read_graph gr h1;
  let '(waveform, h2) := new_obj (ObjWaveform (makeWf g false)) h1 in
  w ← read_waveform waveform h2;
  let N := Z.min (GetN (even w)) (to_int (shape (array s) 4)) in
  let signal := GetY (even w) in
  r ← for_each (seqZ 0 N)
        (λ sample r,
           unchecked_set r (event, phi, AnitaRing.value ring, AnitaPol.value pol, sample)
             (signal sample))
        (array s);
  h3 ← delete_obj waveform h2;
  h4 ← delete_obj gr h3;
  Some (mkState r h4).

Definition rings : list AnitaRing_t := [kTopRing; kMiddleRing; kBottomRing].
Definition pols : list AnitaPol_t := [kHorizontal; kVertical].

(** The phi, ring and polarization loops of one event slot (lines 45-78). *)
Definition fill_event (usefulEvent : UsefulAnitaEvent) (event : Z) (s : State)
  : option State :=
  for_each (seqZ 0 (shape (array s) 1))
    (λ phi, for_each rings
       (λ ring, for_each pols
          (λ pol, fill_channel usefulEvent event phi ring pol)))
    s.

(** Which [return] statement ended the call: the one inside the run check
    (line 93) or the one after the loop (line 101). *)
Inductive Exit : Type := ReturnRunChanged | ReturnLoopEnd.

#[global] Instance Exit_eq_dec : EqDecision Exit.
Proof. solve_decision. Defined.

(** The loop over the event slots (lines 32-97), [n] slots from [event] on. *)
Fixpoint event_loop (n : nat) (event : Z) (evno : Z) (this : WaveformReader) (s : State)
  : option (Exit * Z * WaveformReader * State) :=
  match n with
  | O => Some (ReturnLoopEnd, evno, this, s)
  | S n' =>
      let evno := header_eventNumber (dataset_ this) in
      let usefulEvent := useful (dataset_ this) in
      s' ← fill_event usefulEvent event s;
      let dataset' := AnitaDataset_next (dataset_ this) in
      if decide (getCurrRun dataset' ≠ run_ this)
      then Some (ReturnRunChanged, evno, mkReader (getCurrRun dataset') dataset', s')
      else event_loop n' (event + 1) evno (mkReader (run_ this) dataset') s'
  end.

(** [WaveformReader::next], with the [return] statement that was taken. *)
Definition next_traced (this : WaveformReader) (waveforms : NumpyArray float) (h : Heap)
  : option (Exit * Z * WaveformReader * State) :=
  event_loop (Z.to_nat (shape waveforms 0)) 0 0 this (mkState waveforms h).

(** [WaveformReader::next]: the returned [int], the reader and the memory
    after the call. *)
Definition next (this : WaveformReader) (waveforms : NumpyArray float) (h : Heap)
  : option (Z * WaveformReader * State) :=
  match next_traced this waveforms h with
  | Some (_, evno, this', s') => Some (evno, this', s')
  | None => None
  end.

(** Calls of [next] one after another, each on an array of the list, the
    heap carried from call to call: the returned integers in order. *)
Fixpoint calls (this : WaveformReader) (h : Heap) (arrays : list (NumpyArray float))
  : option (list Z * WaveformReader * Heap) :=
  match arrays with
  | [] => Some ([], this, h)
  | waveforms :: arrays' =>
      match next this waveforms h with
      | Some (evno, this', s') =>
          match calls this' (heap s') arrays' with
          | Some (evnos, this'', h') => Some (evno :: evnos, this'', h')
          | None => None
          end
      | None => None
      end
  end.

(** ** Vocabulary of the specification *)

(** The event source after [i] advances. *)
Fixpoint cursor (i : nat) (d : AnitaDataset) : AnitaDataset :=
  match i with
  | O => d
  | S i' => cursor i' (AnitaDataset_next d)
  end.

(** The number of events a call attempts when [n] slots are requested: the
    events are taken one after another, and the call stops after the first
    advance that leaves the source in a run other than [run], or after [n]. *)
Fixpoint attempted (n : nat) (d : AnitaDataset) (run : Z) : nat :=
  match n with
  | O => O
  | S n' =>
      if decide (getCurrRun (AnitaDataset_next d) ≠ run) then 1%nat
      else S (attempted n' (AnitaDataset_next d) run)
  end.

(** The evenly sampled waveform of a channel of a calibrated event. *)
Definition channel_waveform (u : UsefulAnitaEvent) (phi : Z)
    (ring : AnitaRing_t) (pol : AnitaPol_t) : TGraphAligned :=
  even (makeWf (getGraph u ring phi pol) false).

(** The number of samples copied for a channel, as line 62 computes it. *)
Definition copied (sh : Z → Z) (u : UsefulAnitaEvent) (phi : Z)
    (ring : AnitaRing_t) (pol : AnitaPol_t) : Z :=
  Z.min (GetN (channel_waveform u phi ring pol)) (to_int (sh 4)).

(** A set of array elements with the value written to each. *)
Definition cells : Type := index → option float.

Definition no_cells : cells := λ _, None.

(** The writes of [later] after those of [earlier]. *)
Definition over (later earlier : cells) : cells :=
  λ j, match later j with Some v => Some v | None => earlier j end.

Fixpoint cells_of {A : Type} (l : list A) (c : A → cells) : cells :=
  match l with
  | [] => no_cells
  | x :: l' => over (cells_of l' c) (c x)
  end.

Definition sample_cell (event phi k q : Z) (signal : Z → float) (sample : Z) : cells :=
  λ j, if decide (j = (event, phi, k, q, sample)) then Some (signal sample) else None.

(** The elements of event slot [event] that are written from the calibrated
    event [u], for an array of shape [sh]. *)
Definition written (sh : Z → Z) (u : UsefulAnitaEvent) (event : Z) : cells :=
  λ j, match j with
       | (e, p, k, q, x) =>
           if decide (e = event ∧ 0 ≤ p < sh 1) then
             match AnitaRing.of_value k, AnitaPol.of_value q with
             | Some ring, Some pol =>
                 if decide (0 ≤ x < copied sh u p ring pol)
                 then Some (GetY (channel_waveform u p ring pol) x)
                 else None
             | _, _ => None
             end
           else None
       end.

(** The elements written when [k] events are processed from slot [first] on,
    the source being [d] at the first of them. *)
Definition batch (sh : Z → Z) (d : AnitaDataset) (first : Z) (k : nat) : cells :=
  λ j, match j with
       | (e, p, k', q, x) =>
           if decide (first ≤ e < first + Z.of_nat k)
           then written sh (useful (cursor (Z.to_nat (e - first)) d)) e j
           else None
       end.

(** [a'] is [a] with the cells [c] written, every one of them inside the shape. *)
Definition fills (c : cells) (a a' : NumpyArray float) : Prop :=
  shape a' = shape a
  ∧ (∀ j, data a' j = default (data a j) (c j))
  ∧ (∀ j, is_Some (c j) → in_shape (shape a) j).

(** The same for the memory: the heap is as it was. *)
Definition sfills (c : cells) (s s' : State) : Prop :=
  heap s' = heap s ∧ fills c (array s) (array s').

(** The cells of a channel: the first [copied] samples of its waveform. *)
Definition channel_cells (sh : Z → Z) (u : UsefulAnitaEvent) (event phi : Z)
    (ring : AnitaRing_t) (pol : AnitaPol_t) : cells :=
  λ j, match j with
       | (e, p, k, q, x) =>
           if decide (e = event ∧ p = phi ∧ k = AnitaRing.value ring
                      ∧ q = AnitaPol.value pol ∧ 0 ≤ x < copied sh u phi ring pol)
           then Some (GetY (channel_waveform u phi ring pol) x)
           else None
       end.

(** The cells of the three nested loops of an event slot. *)
Definition event_cells (sh : Z → Z) (u : UsefulAnitaEvent) (event : Z) : cells :=
  cells_of (seqZ 0 (sh 1))
    (λ phi, cells_of rings
       (λ ring, cells_of pols
          (λ pol, channel_cells sh u event phi ring pol))).

(** What a loop body does to an array whose shape is [sh]. *)
Definition does (sh : Z → Z) (c : cells) (s s' : State) : Prop :=
  shape (array s) = sh → sfills c s s'.

(** The number of event slots of an array, and the number of events a call
    on it attempts. *)
Definition requested (waveforms : NumpyArray float) : nat :=
  Z.to_nat (shape waveforms 0).

Definition attempted_by (this : WaveformReader) (waveforms : NumpyArray float) : nat :=
  attempted (requested waveforms) (dataset_ this) (run_ this).

(** The stored run is the current run of the event source. *)
Definition tracks (this : WaveformReader) : Prop :=
  run_ this = getCurrRun (dataset_ this).

(** The geometry the loops assume: three rings, two polarizations. *)
Definition well_shaped (sh : Z → Z) : Prop :=
  3 ≤ sh 2 ∧ 2 ≤ sh 3 ∧ 0 ≤ sh 4.

End Reader.

Arguments cells float : clear implicits.

(** ** A synthetic library

    An event source given by the run and the event number at every position,
    whose channel traces encode the event, the phi-sector, the ring and the
    polarization; every waveform has [samples] samples. *)

Module Synth.

Record Dataset : Type := mkDataset {
  source : nat → Z * Z;
  position : nat;
  samples : Z
}.

Definition advance (d : Dataset) : Dataset :=
  mkDataset (source d) (S (position d)) (samples d).

(** event number, samples per waveform, ring, phi-sector, polarization *)
Definition Trace : Type := Z * Z * AnitaRing_t * Z * AnitaPol_t.

Definition amplitude (t : Trace) (x : Z) : Z :=
  match t with
  | (e, _, ring, phi, pol) =>
      10000 * e + 1000 * phi + 100 * AnitaRing.value ring + 10 * AnitaPol.value pol + x
  end.

#[global] Instance library : AnitaLibrary Z := {|
  AnitaDataset := Dataset;
  UsefulAnitaEvent := Z * Z;
  TGraph := Trace;
  TGraphAligned := Trace;
  AnalysisWaveform := Trace;
  AnitaDataset_new := λ run, mkDataset (λ i, (to_unsigned run, Z.of_nat i)) 0 2;
  header_eventNumber := λ d, snd (source d (position d));
  useful := λ d, (snd (source d (position d)), samples d);
  AnitaDataset_next := advance;
  getCurrRun := λ d, fst (source d (position d));
  getGraph := λ u ring phi pol, (fst u, snd u, ring, phi, pol);
  makeWf := λ g _, g;
  even := λ w, w;
  GetN := λ t, match t with (_, n, _, _, _) => n end;
  GetY := amplitude
|}.

(** Runs 7 = {100, 101} and 8 = {102, 103}; past them the source stays in run 8. *)
Definition two_runs (i : nat) : Z * Z :=
  match i with
  | 0%nat => (7, 100)
  | 1%nat => (7, 101)
  | 2%nat => (8, 102)
  | _ => (8, 103)
  end.

Definition at_e0 : WaveformReader := mkReader 7 (mkDataset two_runs 0 2).

(** An array of [E] event slots, one phi-sector, three rings, two
    polarizations and [B] samples, every element holding the sentinel -1. *)
Definition sentinel (E B : Z) : NumpyArray Z :=
  mkArray (λ axis, match axis with 0 => E | 1 => 1 | 2 => 3 | 3 => 2 | 4 => B | _ => 0 end)
          (λ _, -1).

(** No object allocated. *)
Definition no_objects : gmap nat (@Obj Z library) := ∅.

(** An array of any shape, every element holding the sentinel -1. *)
Definition shaped (E P R Q B : Z) : NumpyArray Z :=
  mkArray (λ axis, match axis with 0 => E | 1 => P | 2 => R | 3 => Q | 4 => B | _ => 0 end)
          (λ _, -1).

End Synth.

(** * Properties *)

(** ** Integer conversions *)

Lemma to_int_id z : - 2 ^ 31 ≤ z ≤ INT_MAX → to_int z = z.
Proof.
  unfold to_int, INT_MAX. intros Hz.
  rewrite Z.mod_small by lia. lia.
Qed.

Lemma to_int_le z : 0 ≤ z → to_int z ≤ z.
Proof.
  unfold to_int. intros Hz.
  pose proof (Z.mod_eq (z + 2 ^ 31) (2 ^ 32) ltac:(lia)) as Heq.
  pose proof (Z.div_pos (z + 2 ^ 31) (2 ^ 32) ltac:(lia) ltac:(lia)).
  lia.
Qed.

Lemma to_unsigned_id z : 0 ≤ z < 2 ^ 32 → to_unsigned z = z.
Proof. unfold to_unsigned. intros Hz. by rewrite Z.mod_small. Qed.

(** ** Loops *)

Section Loops.

Context {A S C : Type}.

(** A relation between the state before and after, indexed by what was done,
    with a unit and a composition. *)
Variable done_by : C → S → S → Prop.
Variable nothing : C.
Variable after : C → C → C.
Hypothesis done_nothing : ∀ s, done_by nothing s s.
Hypothesis done_after : ∀ c1 c2 s s1 s2,
  done_by c1 s s1 → done_by c2 s1 s2 → done_by (after c2 c1) s s2.

Lemma for_each_done (l : list A) (body : A → S → option S) (c : A → C) s s' :
  (∀ x t t', x ∈ l → body x t = Some t' → done_by (c x) t t') →
  for_each l body s = Some s' →
  done_by (done_of nothing after l c) s s'.
Proof.
  revert s. induction l as [|x l IH]; intros s Hbody Hrun; simpl in *.
  - injection Hrun as <-. apply done_nothing.
  - destruct (body x s) as [s1|] eqn:Hx; simpl in Hrun; [|done].
    eapply done_after.
    + eapply Hbody; [left|exact Hx].
    + apply IH; [|exact Hrun]. intros y t t' Hy. apply Hbody. by right.
Qed.

(** A loop is defined when every step is, an invariant carrying the reason. *)
Lemma for_each_defined (l : list A) (body : A → S → option S) (I : S → Prop) s :
  (∀ x t, x ∈ l → I t → ∃ t', body x t = Some t' ∧ I t') →
  I s → ∃ s', for_each l body s = Some s' ∧ I s'.
Proof.
  revert s. induction l as [|x l IH]; intros s Hbody Hs; simpl.
  - eauto.
  - destruct (Hbody x s) as (s1 & Hx & Hs1); [left|done|].
    rewrite Hx. simpl. apply IH; [|done].
    intros y t Hy. apply Hbody. by right.
Qed.

End Loops.

Section Theory.

Context {float : Type} `{Lib : AnitaLibrary float}.

Implicit Types (a r : NumpyArray float) (c : cells float) (j : index) (s : State)
  (this : WaveformReader) (d : AnitaDataset) (sh : Z → Z).

(** ** Written cells *)

Lemma fills_no_cells a : fills no_cells a a.
Proof. split; [done|]. split; [done|]. intros j [v Hv]. discriminate. Qed.

Lemma fills_over c1 c2 a a1 a2 :
  fills c1 a a1 → fills c2 a1 a2 → fills (over c2 c1) a a2.
Proof.
  intros (Hs1 & Hd1 & Hi1) (Hs2 & Hd2 & Hi2). split; [congruence|]. split.
  - intros j. rewrite Hd2, Hd1. unfold over. by destruct (c2 j).
  - intros j. unfold over. destruct (c2 j) eqn:H2; intros Hj.
    + rewrite <- Hs1. apply Hi2. by rewrite H2.
    + by apply Hi1.
Qed.

Lemma fills_ext c c' a a' : (∀ j, c j = c' j) → fills c a a' → fills c' a a'.
Proof.
  intros Hc (Hs & Hd & Hi). split; [done|]. split.
  - intros j. by rewrite <- Hc.
  - intros j. rewrite <- Hc. apply Hi.
Qed.

Lemma sfills_no_cells s : sfills no_cells s s.
Proof. split; [done|]. apply fills_no_cells. Qed.

Lemma sfills_over c1 c2 s s1 s2 :
  sfills c1 s s1 → sfills c2 s1 s2 → sfills (over c2 c1) s s2.
Proof.
  intros [Hh1 Hf1] [Hh2 Hf2]. split; [congruence|]. by eapply fills_over.
Qed.

Lemma sfills_ext c c' s s' : (∀ j, c j = c' j) → sfills c s s' → sfills c' s s'.
Proof. intros Hc [Hh Hf]. split; [done|]. by eapply fills_ext. Qed.

Lemma sfills_shape c s s' : sfills c s s' → shape (array s') = shape (array s).
Proof. by intros (_ & ? & _). Qed.

Lemma cells_of_done_of {A : Type} (l : list A) (f : A → cells float) :
  done_of no_cells over l f = cells_of l f.
Proof. induction l as [|x l IH]; simpl; [done|]. by rewrite IH. Qed.

(** When a cell can only be written by the step its key names, the cells of
    a loop are read off at that step. *)
Lemma cells_of_keyed {A : Type} `{EqDecision A} (l : list A) (f : A → cells float) j (key : A) :
  (∀ x, is_Some (f x j) → x = key) →
  cells_of l f j = if decide (key ∈ l) then f key j else None.
Proof.
  intros Hkey. induction l as [|x l IH].
  - destruct (decide (key ∈ [])) as [Hin|_]; [|done]. by apply not_elem_of_nil in Hin.
  - cbn [cells_of]. unfold over. rewrite IH.
    destruct (decide (key ∈ l)) as [Hin|Hin].
    + destruct (decide (key ∈ x :: l)) as [_|Hn]; [|exfalso; apply Hn; by right].
      destruct (f key j) eqn:Hk; [done|].
      destruct (f x j) eqn:Hx; [|done].
      assert (x = key) as -> by (apply Hkey; by rewrite Hx). congruence.
    + destruct (decide (key ∈ x :: l)) as [Hc|Hc].
      * apply elem_of_cons in Hc as [->|?]; done.
      * destruct (f x j) eqn:Hx; [|done].
        exfalso. apply Hc, elem_of_cons. left. symmetry. apply Hkey. by rewrite Hx.
Qed.

Lemma cells_of_none {A : Type} (l : list A) (f : A → cells float) j :
  (∀ x, f x j = None) → cells_of l f j = None.
Proof.
  intros Hnone. induction l as [|x l IH]; simpl; [done|].
  unfold over. by rewrite IH, Hnone.
Qed.

(** ** One array element *)

Lemma unchecked_set_fills r j v r' :
  unchecked_set r j v = Some r' →
  fills (λ j', if decide (j' = j) then Some v else None) r r'.
Proof.
  unfold unchecked_set. destruct (decide (in_shape (shape r) j)) as [Hin|]; [|done].
  intros [= <-]. split; [done|]. split.
  - intros j'. simpl. by destruct (decide (j' = j)).
  - intros j'. destruct (decide (j' = j)) as [->|]; [done|]. by intros [? ?].
Qed.

(** ** One channel *)

Lemma sample_loop_fills r r' event phi k q (signal : Z → float) N :
  for_each (seqZ 0 N)
    (λ sample r0, unchecked_set r0 (event, phi, k, q, sample) (signal sample)) r = Some r' →
  fills (λ j, match j with
              | (e, p, k', q', x) =>
                  if decide (e = event ∧ p = phi ∧ k' = k ∧ q' = q ∧ 0 ≤ x < N)
                  then Some (signal x) else None
              end) r r'.
Proof.
  intros Hrun.
  eapply (for_each_done (λ c a a', fills c a a') no_cells over fills_no_cells)
    with (c := sample_cell event phi k q signal) in Hrun.
  - rewrite cells_of_done_of in Hrun. eapply fills_ext; [|exact Hrun].
    intros [[[[e p] k'] q'] x]. simpl.
    rewrite (cells_of_keyed _ _ _ x); unfold sample_cell.
    + destruct (decide (x ∈ seqZ 0 N)) as [Hin|Hin]; rewrite elem_of_seqZ in Hin;
        repeat case_decide; simplify_eq; try done; try lia.
      destruct_and!. simplify_eq.
    + intros y [v Hv]. case_decide as Heq; [|done]. by simplify_eq.
  - intros. by apply fills_over with s1.
  - intros x t t' _ Hset. by apply unchecked_set_fills in Hset.
Qed.

Lemma fill_channel_sfills u event phi ring pol s s' :
  fill_channel u event phi ring pol s = Some s' →
  sfills (channel_cells (shape (array s)) u event phi ring pol) s s'.
Proof.
  unfold fill_channel, new_obj, read_graph, read_waveform, delete_obj.
  set (gr := fresh (dom (heap s))).
  assert (heap s !! gr = None) as Hfresh1 by apply not_elem_of_dom, is_fresh.
  rewrite lookup_insert_eq. simpl.
  set (h1 := <[gr := _]> (heap s)).
  set (wf := fresh (dom h1)).
  assert (h1 !! wf = None) as Hfresh2 by apply not_elem_of_dom, is_fresh.
  rewrite lookup_insert_eq. simpl.
  destruct (for_each _ _ (array s)) as [r|] eqn:Hloop; simpl; [|done].
  rewrite (delete_insert_id _ _ _ Hfresh2). subst h1.
  rewrite lookup_insert_eq. simpl.
  rewrite (delete_insert_id _ _ _ Hfresh1).
  intros [= <-]. split; [done|]. simpl.
  apply sample_loop_fills in Hloop. exact Hloop.
Qed.

(** ** One event slot *)

Lemma ring_of_value k ring : AnitaRing.of_value k = Some ring ↔ k = AnitaRing.value ring.
Proof.
  unfold AnitaRing.of_value. split.
  - repeat case_decide; intros [= <-]; done.
  - intros ->. by destruct ring.
Qed.

Lemma pol_of_value q pol : AnitaPol.of_value q = Some pol ↔ q = AnitaPol.value pol.
Proof.
  unfold AnitaPol.of_value. split.
  - repeat case_decide; intros [= <-]; done.
  - intros ->. by destruct pol.
Qed.

Lemma elem_of_rings ring : ring ∈ rings.
Proof. unfold rings. destruct ring; set_solver. Qed.

Lemma elem_of_pols pol : pol ∈ pols.
Proof. unfold pols. destruct pol; set_solver. Qed.

Lemma cells_of_Some {A : Type} (l : list A) (f : A → cells float) j v :
  cells_of l f j = Some v → ∃ y, y ∈ l ∧ f y j = Some v.
Proof.
  induction l as [|x l IH]; simpl; [done|].
  unfold over. destruct (cells_of l f j) as [v'|] eqn:Hl.
  - intros [= ->]. destruct IH as (y & Hy & Hv); [done|]. exists y. split; [by right|done].
  - intros Hx. exists x. split; [by left|done].
Qed.

Lemma channel_cells_Some sh u event phi ring pol e p k q x v :
  channel_cells sh u event phi ring pol (e, p, k, q, x) = Some v ↔
  e = event ∧ p = phi ∧ k = AnitaRing.value ring ∧ q = AnitaPol.value pol
  ∧ 0 ≤ x < copied sh u phi ring pol
  ∧ v = GetY (channel_waveform u phi ring pol) x.
Proof.
  unfold channel_cells. case_decide as Hc.
  - split; [intros [= <-]; tauto|]. by intros (_ & _ & _ & _ & _ & ->).
  - split; [done|]. tauto.
Qed.

Lemma event_cells_written sh u event j : event_cells sh u event j = written sh u event j.
Proof.
  destruct j as [[[[e p] k] q] x]. unfold event_cells, written.
  rewrite (cells_of_keyed _ _ _ p).
  2:{ intros phi [v Hv].
      apply cells_of_Some in Hv as (ring & _ & Hv).
      apply cells_of_Some in Hv as (pol & _ & Hv).
      by apply channel_cells_Some in Hv as (_ & -> & _). }
  destruct (decide (p ∈ seqZ 0 (sh 1))) as [Hp|Hp]; rewrite elem_of_seqZ in Hp.
  - destruct (AnitaRing.of_value k) as [ring|] eqn:Hk.
    + apply ring_of_value in Hk as ->.
      rewrite (cells_of_keyed _ _ _ ring).
      2:{ intros ring' [v Hv].
          apply cells_of_Some in Hv as (pol & _ & Hv).
          apply channel_cells_Some in Hv as (_ & _ & Hr & _).
          destruct ring, ring'; done. }
      rewrite decide_True by apply elem_of_rings.
      destruct (AnitaPol.of_value q) as [pol|] eqn:Hq.
      * apply pol_of_value in Hq as ->.
        rewrite (cells_of_keyed _ _ _ pol).
        2:{ intros pol' [v Hv].
            apply channel_cells_Some in Hv as (_ & _ & _ & Hr & _).
            destruct pol, pol'; done. }
        rewrite decide_True by apply elem_of_pols.
        unfold channel_cells. repeat case_decide; try done; lia.
      * rewrite cells_of_none.
        { by case_decide. }
        intros pol. destruct (channel_cells _ _ _ _ _ _ _) as [v|] eqn:Hv; [|done].
        apply channel_cells_Some in Hv as (_ & _ & _ & Hr & _).
        apply pol_of_value in Hr. congruence.
    + rewrite cells_of_none.
      { by case_decide. }
      intros ring. apply cells_of_none. intros pol.
      destruct (channel_cells _ _ _ _ _ _ _) as [v|] eqn:Hv; [|done].
      apply channel_cells_Some in Hv as (_ & _ & Hr & _).
      apply ring_of_value in Hr. congruence.
  - rewrite decide_False; [done|]. lia.
Qed.

Lemma does_no_cells sh s : does sh no_cells s s.
Proof. intros _. apply sfills_no_cells. Qed.

Lemma does_over sh c1 c2 s s1 s2 :
  does sh c1 s s1 → does sh c2 s1 s2 → does sh (over c2 c1) s s2.
Proof.
  intros H1 H2 Hsh. specialize (H1 Hsh).
  eapply sfills_over; [exact H1|]. apply H2.
  by rewrite (sfills_shape _ _ _ H1).
Qed.

Lemma fill_event_sfills u event s s' :
  fill_event u event s = Some s' →
  sfills (written (shape (array s)) u event) s s'.
Proof.
  unfold fill_event. set (sh := shape (array s)). intros Hrun.
  eapply sfills_ext; [apply event_cells_written|].
  unfold event_cells. rewrite <- cells_of_done_of.
  eapply (for_each_done (does sh) no_cells over (does_no_cells sh) (does_over sh));
    [|exact Hrun|done].
  intros phi t t' _ Hphi. rewrite <- cells_of_done_of.
  eapply (for_each_done (does sh) no_cells over (does_no_cells sh) (does_over sh));
    [|exact Hphi].
  intros ring t1 t1' _ Hring. rewrite <- cells_of_done_of.
  eapply (for_each_done (does sh) no_cells over (does_no_cells sh) (does_over sh));
    [|exact Hring].
  intros pol t2 t2' _ Hpol Hsh. rewrite <- Hsh.
  by apply fill_channel_sfills.
Qed.

(** ** The loop over the event slots *)

Lemma written_other_slot sh u event e p k q x :
  e ≠ event → written sh u event (e, p, k, q, x) = None.
Proof. intros Hne. unfold written. case_decide; [|done]. tauto. Qed.

Lemma batch_zero sh d first j : batch sh d first 0 j = None.
Proof. destruct j as [[[[e p] k] q] x]. unfold batch. case_decide; [lia|done]. Qed.

Lemma batch_succ sh d first k j :
  over (batch sh (AnitaDataset_next d) (first + 1) k) (written sh (useful d) first) j
  = batch sh d first (S k) j.
Proof.
  destruct j as [[[[e p] k'] q] x]. unfold over, batch.
  destruct (decide (e = first)) as [->|Hne].
  - rewrite decide_False by lia. rewrite decide_True by lia.
    by replace (first - first) with 0 by lia.
  - rewrite (written_other_slot _ _ first) by done.
    destruct (decide (first + 1 ≤ e < first + 1 + Z.of_nat k)) as [Hin|Hout].
    + rewrite decide_True by lia.
      replace (Z.to_nat (e - first)) with (S (Z.to_nat (e - (first + 1)))) by lia.
      cbn [cursor]. by destruct (written sh _ e _).
    + rewrite decide_False by lia. done.
Qed.

Lemma attempted_le n d run : (attempted n d run ≤ n)%nat.
Proof.
  revert d. induction n as [|n IH]; intros d; simpl; [done|].
  case_decide; [lia|]. specialize (IH (AnitaDataset_next d)). lia.
Qed.

Lemma attempted_pos n d run : n ≠ 0%nat → attempted n d run ≠ 0%nat.
Proof. destruct n; [done|]. intros _. simpl. by case_decide. Qed.

(** Before the last attempted event every advance stays in the run. *)
Lemma attempted_same_run n d run i :
  (1 ≤ i < attempted n d run)%nat → getCurrRun (cursor i d) = run.
Proof.
  revert d i. induction n as [|n IH]; intros d i; simpl; [lia|].
  case_decide as Hrun; [lia|]. intros Hi.
  destruct i as [|[|i]]; [lia| |].
  - simpl. by destruct (decide (getCurrRun (AnitaDataset_next d) = run)).
  - change (cursor (S (S i)) d) with (cursor (S i) (AnitaDataset_next d)).
    apply IH. lia.
Qed.

(** A call that attempts fewer events than requested has left the run. *)
Lemma attempted_short n d run :
  (attempted n d run < n)%nat → getCurrRun (cursor (attempted n d run) d) ≠ run.
Proof.
  revert d. induction n as [|n IH]; intros d; simpl; [lia|].
  case_decide as Hrun; [done|]. intros Hlt.
  change (cursor (S ?k) d) with (cursor k (AnitaDataset_next d)).
  apply IH. lia.
Qed.

(** When every advance but possibly the last stays in the run, all the
    requested events are attempted. *)
Lemma attempted_all n d run :
  (∀ i, (1 ≤ i < n)%nat → getCurrRun (cursor i d) = run) → attempted n d run = n.
Proof.
  revert d. induction n as [|n IH]; intros d Hsame; simpl; [done|].
  destruct n as [|n].
  - by case_decide.
  - rewrite decide_False by (intros Hne; apply Hne, (Hsame 1%nat); lia).
    f_equal. apply IH. intros i Hi.
    change (cursor i (AnitaDataset_next d)) with (cursor (S i) d).
    apply Hsame. lia.
Qed.

Lemma cursor_succ i d : cursor (S i) d = AnitaDataset_next (cursor i d).
Proof. revert d. induction i as [|i IH]; intros d; [done|]. simpl. by rewrite <- IH. Qed.

Lemma event_loop_spec n event evno this s x v this' s' :
  event_loop n event evno this s = Some (x, v, this', s') →
  let d := dataset_ this in
  let k := attempted n d (run_ this) in
  v = match k with O => evno | S i => header_eventNumber (cursor i d) end
  ∧ dataset_ this' = cursor k d
  ∧ (x = ReturnRunChanged ↔ k ≠ 0%nat ∧ getCurrRun (cursor k d) ≠ run_ this)
  ∧ run_ this' = (if decide (x = ReturnRunChanged) then getCurrRun (cursor k d)
                  else run_ this)
  ∧ sfills (batch (shape (array s)) d event k) s s'.
Proof.
  revert event evno this s. induction n as [|n IH]; intros event evno this s; simpl.
  - intros [= <- <- <- <-]. refine (conj _ (conj _ (conj _ (conj _ _)))); try done.
    + split; [done|]. intros [? _]; done.
    + apply sfills_ext with no_cells; [|apply sfills_no_cells].
      intros j. by rewrite batch_zero.
  - destruct (fill_event _ event s) as [s1|] eqn:Hfill; simpl; [|done].
    apply fill_event_sfills in Hfill.
    pose proof (sfills_shape _ _ _ Hfill) as Hsh.
    destruct (decide (getCurrRun (AnitaDataset_next (dataset_ this)) ≠ run_ this))
      as [Hrun|Hrun].
    + intros [= <- <- <- <-]. simpl.
      refine (conj _ (conj _ (conj _ (conj _ _)))); try done.
      eapply sfills_ext; [|exact Hfill].
      intros j. rewrite <- batch_succ. unfold over. by rewrite batch_zero.
    + intros Hloop. apply IH in Hloop. simpl in Hloop.
      destruct Hloop as (Hv & Hd & Hx & Hr & Hf).
      set (k := attempted n _ _) in *.
      refine (conj _ (conj _ (conj _ (conj _ _)))); try done.
      * by destruct k.
      * rewrite Hx. destruct k as [|k]; simpl; [tauto|].
        split; (intros [_ ?]; split; [done|done]).
      * rewrite Hsh in Hf. eapply sfills_ext; [apply batch_succ|].
        by eapply sfills_over.
Qed.

(** ** Defined behaviour

    On an array with three rings and two polarizations every access of the
    loops is inside the shape. *)

Lemma ring_value_range ring : 0 ≤ AnitaRing.value ring < 3.
Proof. destruct ring; simpl; lia. Qed.

Lemma pol_value_range pol : 0 ≤ AnitaPol.value pol < 2.
Proof. destruct pol; simpl; lia. Qed.

Lemma fill_channel_defined sh u event phi ring pol s :
  well_shaped sh → shape (array s) = sh →
  0 ≤ event < sh 0 → 0 ≤ phi < sh 1 →
  ∃ s', fill_channel u event phi ring pol s = Some s' ∧ shape (array s') = sh.
Proof.
  intros (Hrings & Hpols & Hsamples) Hsh Hevent Hphi.
  unfold fill_channel, new_obj, read_graph, read_waveform, delete_obj.
  set (gr := fresh (dom (heap s))).
  assert (heap s !! gr = None) as Hfresh1 by apply not_elem_of_dom, is_fresh.
  rewrite lookup_insert_eq. simpl.
  set (h1 := <[gr := _]> (heap s)).
  set (wf := fresh (dom h1)).
  assert (h1 !! wf = None) as Hfresh2 by apply not_elem_of_dom, is_fresh.
  rewrite lookup_insert_eq. simpl.
  set (N := _ `min` _).
  assert (N ≤ sh 4) as HN.
  { subst N. rewrite Hsh. pose proof (to_int_le (sh 4) Hsamples). lia. }
  destruct (for_each_defined (seqZ 0 N)
    (λ sample r,
       unchecked_set r (event, phi, AnitaRing.value ring, AnitaPol.value pol, sample)
         (GetY (even (makeWf (getGraph u ring phi pol) false)) sample))
    (λ r, shape r = sh) (array s)) as (r & -> & Hr); [|done|].
  { intros x t Hx%elem_of_seqZ Ht. unfold unchecked_set.
    pose proof (ring_value_range ring). pose proof (pol_value_range pol).
    rewrite decide_True; [by eauto|]. rewrite Ht. simpl. lia. }
  simpl. rewrite (delete_insert_id _ _ _ Hfresh2). subst h1.
  rewrite lookup_insert_eq. simpl. eauto.
Qed.

Lemma fill_event_defined sh u event s :
  well_shaped sh → shape (array s) = sh → 0 ≤ event < sh 0 →
  ∃ s', fill_event u event s = Some s' ∧ shape (array s') = sh.
Proof.
  intros Hwell Hsh Hevent. unfold fill_event. rewrite Hsh.
  apply (for_each_defined _ _ (λ t, shape (array t) = sh)); [|done].
  intros phi t Hphi%elem_of_seqZ Ht.
  apply (for_each_defined _ _ (λ t, shape (array t) = sh)); [|done].
  intros ring t1 _ Ht1.
  apply (for_each_defined _ _ (λ t, shape (array t) = sh)); [|done].
  intros pol t2 _ Ht2.
  apply fill_channel_defined; [done|done|done|lia].
Qed.

Lemma event_loop_defined sh n event evno this s :
  well_shaped sh → shape (array s) = sh →
  0 ≤ event → (n ≠ 0%nat → event + Z.of_nat n ≤ sh 0) →
  is_Some (event_loop n event evno this s).
Proof.
  intros Hwell. revert event evno this s.
  induction n as [|n IH]; intros event evno this s Hsh Hlo Hhi; simpl; [done|].
  specialize (Hhi ltac:(done)).
  destruct (fill_event_defined sh (useful (dataset_ this)) event s)
    as (s1 & -> & Hs1); [done|done|lia|].
  simpl. case_decide; [done|]. apply IH; [done|lia|lia].
Qed.

Lemma next_traced_defined this (waveforms : NumpyArray float) h :
  well_shaped (shape waveforms) → is_Some (next_traced this waveforms h).
Proof.
  intros Hwell. unfold next_traced.
  apply (event_loop_defined (shape waveforms)); [done|done|lia|lia].
Qed.

Lemma next_defined this (waveforms : NumpyArray float) h :
  well_shaped (shape waveforms) → is_Some (next this waveforms h).
Proof.
  intros Hwell. unfold next.
  destruct (next_traced_defined this waveforms h Hwell) as [[[[x v] this'] s'] ->].
  done.
Qed.

(** [next] as [next_traced] without the exit. *)
Lemma next_Some this (waveforms : NumpyArray float) h v this' s' :
  next this waveforms h = Some (v, this', s') ↔
  ∃ x, next_traced this waveforms h = Some (x, v, this', s').
Proof.
  unfold next. destruct (next_traced this waveforms h) as [[[[x0 v0] t0] s0]|].
  - split; [intros [= <- <- <-]; eauto|]. by intros [x [= _ <- <- <-]].
  - split; [done|]. by intros [x ?].
Qed.

(** ** The call as a whole *)

Lemma next_traced_spec this (waveforms : NumpyArray float) h x v this' s' :
  next_traced this waveforms h = Some (x, v, this', s') →
  let d := dataset_ this in
  let k := attempted_by this waveforms in
  v = match k with O => 0 | S i => header_eventNumber (cursor i d) end
  ∧ dataset_ this' = cursor k d
  ∧ (x = ReturnRunChanged ↔ k ≠ 0%nat ∧ getCurrRun (cursor k d) ≠ run_ this)
  ∧ run_ this' = (if decide (x = ReturnRunChanged) then getCurrRun (cursor k d)
                  else run_ this)
  ∧ heap s' = h
  ∧ fills (batch (shape waveforms) d 0 k) waveforms (array s').
Proof.
  unfold next_traced. intros Hrun. apply event_loop_spec in Hrun. simpl in Hrun.
  destruct Hrun as (Hv & Hd & Hx & Hr & Hh & Hf). done.
Qed.

Lemma attempted_by_le this (waveforms : NumpyArray float) :
  (attempted_by this waveforms ≤ requested waveforms)%nat.
Proof. apply attempted_le. Qed.

Lemma attempted_by_pos this (waveforms : NumpyArray float) :
  1 ≤ shape waveforms 0 → (1 ≤ attempted_by this waveforms)%nat.
Proof.
  intros HE. unfold attempted_by.
  pose proof (attempted_pos (requested waveforms) (dataset_ this) (run_ this)) as Hpos.
  unfold requested in *. lia.
Qed.

(** The cells of a processed channel. *)
Lemma batch_channel sh d k e p ring pol x :
  (e < k)%nat → 0 ≤ p < sh 1 →
  batch sh d 0 k (Z.of_nat e, p, AnitaRing.value ring, AnitaPol.value pol, x)
  = if decide (0 ≤ x < copied sh (useful (cursor e d)) p ring pol)
    then Some (GetY (channel_waveform (useful (cursor e d)) p ring pol) x)
    else None.
Proof.
  intros He Hp. unfold batch, written.
  rewrite decide_True by lia. rewrite decide_True by lia.
  replace (Z.to_nat (Z.of_nat e - 0)) with e by lia.
  rewrite (proj2 (ring_of_value _ ring) eq_refl).
  by rewrite (proj2 (pol_of_value _ pol) eq_refl).
Qed.

(** Every cell of a batch is a sample of a processed channel. *)
Lemma batch_Some sh d k e p kr kq x v :
  batch sh d 0 k (e, p, kr, kq, x) = Some v →
  ∃ i ring pol,
    e = Z.of_nat i ∧ (i < k)%nat ∧ 0 ≤ p < sh 1
    ∧ kr = AnitaRing.value ring ∧ kq = AnitaPol.value pol
    ∧ 0 ≤ x < copied sh (useful (cursor i d)) p ring pol
    ∧ v = GetY (channel_waveform (useful (cursor i d)) p ring pol) x.
Proof.
  unfold batch, written. case_decide as He; [|done]. case_decide as Hp; [|done].
  destruct (AnitaRing.of_value kr) as [ring|] eqn:Hr; [|done].
  destruct (AnitaPol.of_value kq) as [pol|] eqn:Hq; [|done].
  case_decide as Hx; [|done]. intros [= <-].
  apply ring_of_value in Hr. apply pol_of_value in Hq.
  replace (e - 0) with e in * by lia.
  exists (Z.to_nat e), ring, pol.
  split; [lia|]. split; [lia|]. split; [tauto|]. done.
Qed.

Lemma batch_beyond sh d k e p kr kq x :
  Z.of_nat k ≤ e → batch sh d 0 k (e, p, kr, kq, x) = None.
Proof. intros He. unfold batch. rewrite decide_False; [done|lia]. Qed.

(** A cell is inside the shape and inside the waveform. *)
Lemma copied_le_samples sh u p ring pol :
  copied sh u p ring pol ≤ GetN (channel_waveform u p ring pol).
Proof. unfold copied. lia. Qed.

Lemma copied_int_size sh u p ring pol :
  - 2 ^ 31 ≤ sh 4 ≤ INT_MAX →
  copied sh u p ring pol = Z.min (GetN (channel_waveform u p ring pol)) (sh 4).
Proof. intros Hsh. unfold copied. by rewrite to_int_id. Qed.

(** * The claims *)

(** C1: for every call of [next] on an array with at least one event slot, the
    returned integer is the event number, as read from the header of the
    event source, of the last event the call attempted, whichever of the two
    [return] statements ends the call (the one after the loop is reached only
    when every requested slot was attempted); on an array with three rings
    and two polarizations the call does return. *)
Theorem next_returns_last_attempted this (waveforms : NumpyArray float) h :
  1 ≤ shape waveforms 0 →
  (well_shaped (shape waveforms) → is_Some (next this waveforms h))
  ∧ ∀ x v this' s',
      next_traced this waveforms h = Some (x, v, this', s') →
      let k := attempted_by this waveforms in
      next this waveforms h = Some (v, this', s')
      ∧ (1 ≤ k ≤ requested waveforms)%nat
      ∧ v = header_eventNumber (cursor (k - 1) (dataset_ this))
      ∧ (x = ReturnLoopEnd → k = requested waveforms).
Proof.
  intros HE. split; [apply next_defined|].
  intros x v this' s' Hrun k.
  pose proof (attempted_by_pos this waveforms HE) as Hpos.
  pose proof (attempted_by_le this waveforms) as Hle.
  pose proof Hrun as (Hv & _ & Hx & _)%next_traced_spec.
  fold k in Hv, Hx.
  split; [apply next_Some; eauto|]. split; [done|]. split.
  - destruct k as [|i] eqn:Hk; [lia|]. by replace (S i - 1)%nat with i by lia.
  - intros ->. destruct (decide (k = requested waveforms)) as [|Hne]; [done|].
    assert (ReturnLoopEnd = ReturnRunChanged) as Habs; [|done].
    apply Hx. split; [lia|]. apply attempted_short. fold (attempted_by this waveforms).
    fold k. lia.
Qed.

(** C10: on an array whose event-slot axis has size 0, [next] returns 0, the
    initial value of [evno] and not a value read from a header; the array,
    the heap and the reader, hence the event cursor and the stored run, are
    what they were. *)
Theorem next_no_slots this (waveforms : NumpyArray float) h :
  shape waveforms 0 = 0 →
  next this waveforms h = Some (0, this, mkState waveforms h)
  ∧ next_traced this waveforms h = Some (ReturnLoopEnd, 0, this, mkState waveforms h).
Proof.
  intros HE. unfold next, next_traced. rewrite HE. done.
Qed.

(** C2: the event source is at e0, with e0 and e1 in run R1 and e2 in the
    next run R2, and the stored run is R1.  A call on an array of three event
    slots returns the event number of e1 from the [return] of the run check,
    leaves the source at e2 and the stored run equal to R2, has written the
    channels of slot 0 from e0 and those of slot 1 from e1, and has left
    every element of slot 2 as it was; on an array with three rings and two
    polarizations the call does return. *)
Theorem next_run_boundary this (waveforms : NumpyArray float) h R1 R2 :
  let d := dataset_ this in
  R1 ≠ R2 →
  run_ this = R1 →
  getCurrRun d = R1 →
  getCurrRun (cursor 1 d) = R1 →
  getCurrRun (cursor 2 d) = R2 →
  shape waveforms 0 = 3 →
  (well_shaped (shape waveforms) → is_Some (next this waveforms h))
  ∧ ∀ x v this' s',
      next_traced this waveforms h = Some (x, v, this', s') →
      x = ReturnRunChanged
      ∧ v = header_eventNumber (cursor 1 d)
      ∧ run_ this' = R2
      ∧ dataset_ this' = cursor 2 d
      ∧ (∀ e p ring pol sample,
           (e < 2)%nat → 0 ≤ p < shape waveforms 1 →
           let u := useful (cursor e d) in
           0 ≤ sample < copied (shape waveforms) u p ring pol →
           data (array s')
             (Z.of_nat e, p, AnitaRing.value ring, AnitaPol.value pol, sample)
           = GetY (channel_waveform u p ring pol) sample)
      ∧ (∀ p k q sample,
           data (array s') (2, p, k, q, sample) = data waveforms (2, p, k, q, sample)).
Proof.
  intros d Hne Hrun _ H1 H2 HE. split; [apply next_defined|].
  intros x v this' s' Hcall.
  apply next_traced_spec in Hcall as (Hv & Hd & Hx & Hr & _ & Hf).
  assert (attempted_by this waveforms = 2%nat) as Hk.
  { unfold attempted_by, requested. rewrite HE.
    change (Z.to_nat 3) with 3%nat. simpl. fold d. simpl in H1, H2.
    rewrite Hrun. rewrite decide_False by (intros Hc; by apply Hc).
    rewrite decide_True; [done|]. by rewrite H2. }
  rewrite Hk in *. fold d in Hv, Hd, Hx, Hr, Hf.
  assert (x = ReturnRunChanged) as ->.
  { apply Hx. split; [done|]. by rewrite H2, Hrun. }
  rewrite decide_True in Hr by done.
  destruct Hf as (_ & Hdata & _).
  refine (conj eq_refl (conj Hv (conj _ (conj Hd (conj _ _))))).
  - by rewrite Hr.
  - intros e p ring pol sample He Hp u Hs.
    rewrite Hdata, batch_channel by done.
    fold u. by rewrite decide_True.
  - intros p k q sample. rewrite Hdata, batch_beyond; [done|lia].
Qed.

(** The copy of a channel when the size B of the sample axis fits a C++
    [int] (B ≤ 2^31 - 1), so that the cast of line 62 keeps it: for every
    processed event slot, phi-sector and channel, with S the sample count of
    the resampled waveform, [next] writes exactly the positions [0, min(S,B))
    of the sample axis of that channel, each with the sample of the waveform
    at the same index, and leaves the other positions of that channel as
    they were. *)
Theorem next_copies_min_samples this (waveforms : NumpyArray float) h v this' s'
    (e : nat) (p : Z) (ring : AnitaRing_t) (pol : AnitaPol_t) :
  shape waveforms 4 ≤ INT_MAX →
  next this waveforms h = Some (v, this', s') →
  (e < attempted_by this waveforms)%nat →
  0 ≤ p < shape waveforms 1 →
  let wf := channel_waveform (useful (cursor e (dataset_ this))) p ring pol in
  let N := Z.min (GetN wf) (shape waveforms 4) in
  let at_sample sample :=
    (Z.of_nat e, p, AnitaRing.value ring, AnitaPol.value pol, sample) in
  (∀ sample, 0 ≤ sample < N →
     data (array s') (at_sample sample) = GetY wf sample)
  ∧ (∀ sample, ¬ (0 ≤ sample < N) →
     data (array s') (at_sample sample) = data waveforms (at_sample sample)).
Proof.
  intros HB [x Hcall]%next_Some He Hp wf N at_sample.
  apply next_traced_spec in Hcall as (_ & _ & _ & _ & _ & _ & Hdata & Hin).
  assert (∀ sample, data (array s') (at_sample sample) =
    if decide (0 ≤ sample < N) then GetY wf sample
    else data waveforms (at_sample sample)) as Hcell.
  { intros sample. unfold at_sample. rewrite Hdata.
    pose proof (Hin (at_sample sample)) as Hshape. unfold at_sample in Hshape.
    rewrite batch_channel in * by done. fold wf.
    set (c := copied _ _ _ _ _) in *.
    assert (c = Z.min (GetN wf) (to_int (shape waveforms 4))) as Hc by done.
    destruct (decide (0 ≤ sample < c)) as [Hs|Hs]; simpl.
    - destruct Hshape as (_ & _ & _ & _ & HsB); [done|].
      rewrite decide_True; [done|]. subst N. lia.
    - destruct (decide (0 ≤ sample < N)) as [HsN|]; [|done].
      exfalso. apply Hs. rewrite Hc, to_int_id; [done|]. unfold INT_MAX in *. lia. }
  split; intros sample Hs; rewrite Hcell.
  - by rewrite decide_True.
  - by rewrite decide_False.
Qed.

(** C4: after a call, the shape of the array is what it was and every
    element outside the written region holds the value it held before: in
    every channel the samples at indices from min(S,B) on, S being the sample
    count of the waveform and B the size of the sample axis; every element of
    the event slots from the first one not attempted on, which on a return
    from the run check are the slots never reached; and every element that is
    not a copied sample of a processed channel. *)
Theorem next_frame this (waveforms : NumpyArray float) h v this' s' :
  next this waveforms h = Some (v, this', s') →
  let d := dataset_ this in
  let k := attempted_by this waveforms in
  shape (array s') = shape waveforms
  ∧ (∀ (e : nat) p ring pol sample,
       Z.min (GetN (channel_waveform (useful (cursor e d)) p ring pol))
             (shape waveforms 4) ≤ sample →
       data (array s')
         (Z.of_nat e, p, AnitaRing.value ring, AnitaPol.value pol, sample)
       = data waveforms
           (Z.of_nat e, p, AnitaRing.value ring, AnitaPol.value pol, sample))
  ∧ (∀ e p kr kq sample,
       Z.of_nat k ≤ e →
       data (array s') (e, p, kr, kq, sample) = data waveforms (e, p, kr, kq, sample))
  ∧ (∀ j, batch (shape waveforms) d 0 k j = None →
       data (array s') j = data waveforms j).
Proof.
  intros [x Hcall]%next_Some d k.
  apply next_traced_spec in Hcall as (_ & _ & _ & _ & _ & Hshape & Hdata & Hin).
  fold d k in Hdata, Hin.
  assert (∀ j, batch (shape waveforms) d 0 k j = None →
            data (array s') j = data waveforms j) as Hframe.
  { intros j Hj. by rewrite Hdata, Hj. }
  refine (conj Hshape (conj _ (conj _ Hframe))).
  - intros e p ring pol sample Hs. apply Hframe.
    destruct (batch _ _ _ _ _) as [y|] eqn:Hcell; [|done]. exfalso.
    pose proof (Hin _ (mk_is_Some _ _ Hcell)) as (_ & _ & _ & _ & HsB).
    apply batch_Some in Hcell as (i & ring' & pol' & Hi & _ & _ & Hr & Hq & Hc & _).
    apply Nat2Z.inj in Hi as <-.
    assert (ring' = ring) as -> by (destruct ring, ring'; done).
    assert (pol' = pol) as -> by (destruct pol, pol'; done).
    pose proof (copied_le_samples (shape waveforms) (useful (cursor e d)) p ring pol).
    lia.
  - intros e p kr kq sample He. apply Hframe. by apply batch_beyond.
Qed.

(** C5: for every processed event slot and phi-sector, the samples written at
    ring index 0, 1, 2 are those of the top, middle and bottom ring, and the
    samples written at polarization index 0, 1 are those of the horizontal
    and vertical polarization; [next] takes no argument that could change
    the order. *)
Theorem next_ring_pol_order this (waveforms : NumpyArray float) h v this' s'
    (e : nat) (p sample : Z) :
  next this waveforms h = Some (v, this', s') →
  (e < attempted_by this waveforms)%nat →
  0 ≤ p < shape waveforms 1 →
  let u := useful (cursor e (dataset_ this)) in
  let from (kr kq : Z) (ring : AnitaRing_t) (pol : AnitaPol_t) :=
    0 ≤ sample < copied (shape waveforms) u p ring pol →
    data (array s') (Z.of_nat e, p, kr, kq, sample)
    = GetY (channel_waveform u p ring pol) sample in
  from 0 0 kTopRing kHorizontal ∧ from 0 1 kTopRing kVertical
  ∧ from 1 0 kMiddleRing kHorizontal ∧ from 1 1 kMiddleRing kVertical
  ∧ from 2 0 kBottomRing kHorizontal ∧ from 2 1 kBottomRing kVertical.
Proof.
  intros [x Hcall]%next_Some He Hp u from.
  apply next_traced_spec in Hcall as (_ & _ & _ & _ & _ & _ & Hdata & _).
  assert (∀ ring pol, from (AnitaRing.value ring) (AnitaPol.value pol) ring pol) as Hfrom.
  { intros ring pol Hs. rewrite Hdata, batch_channel by done.
    fold u. by rewrite decide_True. }
  repeat split; apply Hfrom.
Qed.

(** ** Calls one after another *)

Lemma calls_defined this h (arrays : list (NumpyArray float)) :
  Forall (λ w, well_shaped (shape w)) arrays → is_Some (calls this h arrays).
Proof.
  intros Hwell. revert this h.
  induction Hwell as [|w arrays Hw _ IH]; intros this h; simpl; [done|].
  destruct (next_defined this w h Hw) as [[[v this'] s'] ->].
  destruct (IH this' (heap s')) as [[[vs this''] h'] ->]. done.
Qed.

Lemma calls_heap this h (arrays : list (NumpyArray float)) evnos this' h' :
  calls this h arrays = Some (evnos, this', h') → h' = h.
Proof.
  revert this h evnos this' h'.
  induction arrays as [|w arrays IH]; intros this h evnos this' h'; simpl.
  - by intros [= _ _ <-].
  - destruct (next this w h) as [[[v this1] s1]|] eqn:Hnext; [|done].
    destruct (calls this1 (heap s1) arrays) as [[[vs this2] h2]|] eqn:Hrest; [|done].
    intros [= _ _ <-]. apply IH in Hrest as ->.
    apply next_Some in Hnext as [x Hx].
    by apply next_traced_spec in Hx as (_ & _ & _ & _ & Hh & _).
Qed.

Lemma next_single_slot this (waveforms : NumpyArray float) h v this' s' :
  shape waveforms 0 = 1 →
  next this waveforms h = Some (v, this', s') →
  v = header_eventNumber (dataset_ this)
  ∧ dataset_ this' = AnitaDataset_next (dataset_ this).
Proof.
  intros HE [x Hx]%next_Some.
  apply next_traced_spec in Hx as (Hv & Hd & _).
  assert (attempted_by this waveforms = 1%nat) as Hk.
  { unfold attempted_by, requested. rewrite HE.
    change (Z.to_nat 1) with 1%nat. simpl. by case_decide. }
  rewrite Hk in *. done.
Qed.

Lemma calls_single_slot this h (arrays : list (NumpyArray float)) evnos this' h' :
  Forall (λ w, shape w 0 = 1) arrays →
  calls this h arrays = Some (evnos, this', h') →
  length evnos = length arrays
  ∧ (∀ i, (i < length arrays)%nat →
       evnos !! i = Some (header_eventNumber (cursor i (dataset_ this))))
  ∧ dataset_ this' = cursor (length arrays) (dataset_ this).
Proof.
  intros Hone. revert this h evnos this' h'.
  induction Hone as [|w arrays Hw _ IH]; intros this h evnos this' h'; simpl.
  - intros [= <- <- _]. split; [done|]. split; [|done]. intros i Hi. lia.
  - destruct (next this w h) as [[[v this1] s1]|] eqn:Hnext; [|done].
    destruct (calls this1 (heap s1) arrays) as [[[vs this2] h2]|] eqn:Hrest; [|done].
    intros [= <- <- _].
    apply (next_single_slot _ _ _ _ _ _ Hw) in Hnext as [-> Hd1].
    apply IH in Hrest as (Hlen & Hvs & Hd2). rewrite Hd1 in Hvs, Hd2.
    split; [simpl; lia|]. split; [|done].
    intros [|i] Hi; [done|]. simpl. apply Hvs. lia.
Qed.

(** C6, as amended: when the array has as many event slots as events remain
    in the stored run, the call attempts every slot, returns the event number
    of the last event of the run and leaves the source one advance past it.
    The [return] after the loop is taken, and the stored run is unchanged,
    when the source is still in the stored run after that advance; when the
    advance has moved the source to another run, the [return] of the run
    check is taken at the last slot and the stored run becomes that run. *)
Theorem next_exact_fit this (waveforms : NumpyArray float) h x v this' s' :
  let d := dataset_ this in
  let E := requested waveforms in
  1 ≤ shape waveforms 0 →
  (∀ i, (i < E)%nat → getCurrRun (cursor i d) = run_ this) →
  next_traced this waveforms h = Some (x, v, this', s') →
  attempted_by this waveforms = E
  ∧ v = header_eventNumber (cursor (E - 1) d)
  ∧ dataset_ this' = cursor E d
  ∧ (getCurrRun (cursor E d) = run_ this →
       x = ReturnLoopEnd ∧ run_ this' = run_ this)
  ∧ (getCurrRun (cursor E d) ≠ run_ this →
       x = ReturnRunChanged ∧ run_ this' = getCurrRun (cursor E d)).
Proof.
  intros d E HE Hsame Hcall.
  assert (attempted_by this waveforms = E) as Hk.
  { apply attempted_all. intros i Hi. apply Hsame. fold E. lia. }
  apply next_traced_spec in Hcall as (Hv & Hd & Hx & Hr & _).
  rewrite Hk in *. fold d in Hv, Hd, Hx, Hr.
  assert (E ≠ 0%nat) as HE0 by (unfold E, requested; lia).
  refine (conj eq_refl (conj _ (conj Hd (conj _ _)))).
  - destruct E as [|i]; [done|]. by replace (S i - 1)%nat with i by lia.
  - intros Hrun. destruct x.
    + apply Hx in Hrun; [done|done].
    + by rewrite decide_False in Hr.
  - intros Hrun. assert (x = ReturnRunChanged) as -> by (by apply Hx).
    by rewrite decide_True in Hr.
Qed.

(** C7: the events at the source from the cursor on are numbered e0, e1, ...,
    ek.  Calls of [next] one after another, each on an array of one event
    slot, return e0, e1, ..., ek in this order, one number per call, and leave
    the source k+1 advances further; on arrays with three rings and two
    polarizations the calls do return.  Every call, on any array, leaves the
    source advanced by the number of events it attempted. *)
Theorem next_single_slot_calls this h (es : list Z) (arrays : list (NumpyArray float)) :
  (∀ i e, es !! i = Some e → header_eventNumber (cursor i (dataset_ this)) = e) →
  length arrays = length es →
  Forall (λ w, shape w 0 = 1) arrays →
  (Forall (λ w, well_shaped (shape w)) arrays → is_Some (calls this h arrays))
  ∧ (∀ evnos this' h',
       calls this h arrays = Some (evnos, this', h') →
       evnos = es ∧ dataset_ this' = cursor (length es) (dataset_ this))
  ∧ (∀ w h0 x v this' s',
       next_traced this w h0 = Some (x, v, this', s') →
       dataset_ this' = cursor (attempted_by this w) (dataset_ this)).
Proof.
  intros Hes Hlen Hone. split; [apply calls_defined|]. split.
  - intros evnos this' h' Hcalls.
    apply calls_single_slot in Hcalls as (Hl & Hvs & Hd); [|done].
    rewrite Hlen in *. split; [|done].
    apply list_eq. intros i.
    destruct (decide (i < length es)%nat) as [Hi|Hi].
    + rewrite Hvs by done.
      destruct (lookup_lt_is_Some_2 es i Hi) as [e He].
      by rewrite He, (Hes i e He).
    + rewrite !lookup_ge_None_2; [done|lia|lia].
  - intros w h0 x v this' s' Hcall.
    by apply next_traced_spec in Hcall as (_ & Hd & _).
Qed.

(** C8: the stored run.  At construction it is the run argument, converted
    to [unsigned int], the type of the field (the argument itself when it is
    not negative), and it is the current run of the source when the source
    opened for a run reports that run.  During [next] it changes exactly when
    one of the advances of the call leaves the source in a run other than the
    stored one, and it is then the current run of the source.  After a call
    that attempted an event it is the current run of the source, the run of
    the event read by the last advance; a call on no slot leaves the reader
    as it was. *)
Theorem stored_run_invariant this (waveforms : NumpyArray float) h x v this' s' :
  next_traced this waveforms h = Some (x, v, this', s') →
  let d := dataset_ this in
  let k := attempted_by this waveforms in
  (∀ run, run_ (WaveformReader_new run) = to_unsigned run
          ∧ (0 ≤ run ≤ INT_MAX → run_ (WaveformReader_new run) = run)
          ∧ (getCurrRun (AnitaDataset_new run) = to_unsigned run →
             tracks (WaveformReader_new run)))
  ∧ (run_ this' ≠ run_ this ↔
       ∃ i, (1 ≤ i ≤ k)%nat ∧ getCurrRun (cursor i d) ≠ run_ this)
  ∧ (run_ this' ≠ run_ this → x = ReturnRunChanged ∧ tracks this')
  ∧ (k ≠ 0%nat → tracks this')
  ∧ (k = 0%nat → this' = this)
  ∧ (tracks this → tracks this').
Proof.
  intros Hcall d k.
  pose proof (next_traced_spec _ _ _ _ _ _ _ Hcall) as (_ & Hd & Hx & Hr & _).
  fold d k in Hd, Hx, Hr.
  assert (k ≠ 0%nat → tracks this') as Htracks.
  { intros Hk. unfold tracks. rewrite Hd, Hr. case_decide as Hc; [done|].
    destruct (decide (getCurrRun (cursor k d) = run_ this)) as [|Hne]; [done|].
    exfalso. by apply Hc, Hx. }
  assert (run_ this' ≠ run_ this → x = ReturnRunChanged) as Hchanged.
  { intros Hne. destruct x; [done|]. by rewrite decide_False in Hr. }
  assert (k = 0%nat → this' = this) as Hnone.
  { intros Hk. unfold next_traced in Hcall. unfold k, attempted_by in Hk.
    pose proof (attempted_pos (requested waveforms) (dataset_ this) (run_ this)) as Hp.
    destruct (requested waveforms) eqn:HE; [|by destruct Hp].
    unfold requested in HE. rewrite HE in Hcall. simpl in Hcall. congruence. }
  refine (conj _ (conj _ (conj _ (conj Htracks (conj Hnone _))))).
  - intros run. split; [done|]. split.
    + intros Hrun. simpl. apply to_unsigned_id. unfold INT_MAX in Hrun. lia.
    + intros Hopen. unfold tracks. simpl. done.
  - split.
    + intros Hne. apply Hchanged, Hx in Hne as [Hk Hrun].
      exists k. split; [lia|done].
    + intros (i & Hi & Hrun).
      destruct (decide (i = k)) as [->|Hik].
      * assert (x = ReturnRunChanged) as -> by (apply Hx; split; [lia|done]).
        by rewrite decide_True in Hr by done; rewrite Hr.
      * exfalso. apply Hrun. apply (attempted_same_run (requested waveforms)).
        unfold k, attempted_by, d in *. lia.
  - intros Hne. split; [by apply Hchanged|].
    apply Htracks. intros Hk. apply Hne. by rewrite (Hnone Hk).
  - intros Htr. destruct (decide (k = 0%nat)) as [Hk|Hk].
    + by rewrite (Hnone Hk).
    + by apply Htracks.
Qed.

(** C9: the raw trace and the resampled waveform obtained for a channel are
    both released when the body of the channel loop ends, so that the heap
    after the body is the heap before it; the heap after a call of [next],
    whichever [return] ends it, and after any number of calls, is the heap
    before: no object of a channel remains. *)
Theorem next_releases_channel_objects :
  (∀ u event phi ring pol s s',
     fill_channel u event phi ring pol s = Some s' → heap s' = heap s)
  ∧ (∀ this (waveforms : NumpyArray float) h v this' s',
       next this waveforms h = Some (v, this', s') → heap s' = h)
  ∧ (∀ this h (arrays : list (NumpyArray float)) evnos this' h',
       calls this h arrays = Some (evnos, this', h') → h' = h).
Proof.
  split; [|split].
  - intros u event phi ring pol s s' Hfill.
    by apply fill_channel_sfills in Hfill as [Hh _].
  - intros this waveforms h v this' s' [x Hcall]%next_Some.
    by apply next_traced_spec in Hcall as (_ & _ & _ & _ & Hh & _).
  - intros this h arrays evnos this' h'. apply calls_heap.
Qed.

End Theory.

(** * Further properties of [next] and of the constructor *)

Section Further.

Context {float : Type} `{Lib : AnitaLibrary float}.

Implicit Types (a r : NumpyArray float) (j : index) (s : State)
  (this : WaveformReader) (d : AnitaDataset) (sh : Z → Z).

(** ** When the accesses stay inside the array *)

Lemma written_channel sh u event p ring pol x :
  0 ≤ p < sh 1 →
  written sh u event (event, p, AnitaRing.value ring, AnitaPol.value pol, x)
  = if decide (0 ≤ x < copied sh u p ring pol)
    then Some (GetY (channel_waveform u p ring pol) x)
    else None.
Proof.
  intros Hp. unfold written. rewrite decide_True by done.
  rewrite (proj2 (ring_of_value _ ring) eq_refl).
  by rewrite (proj2 (pol_of_value _ pol) eq_refl).
Qed.

Lemma fill_channel_defined_cells sh u event phi ring pol s :
  shape (array s) = sh →
  (∀ x, 0 ≤ x < copied sh u phi ring pol →
        in_shape sh (event, phi, AnitaRing.value ring, AnitaPol.value pol, x)) →
  ∃ s', fill_channel u event phi ring pol s = Some s' ∧ shape (array s') = sh.
Proof.
  intros Hsh Hin.
  unfold fill_channel, new_obj, read_graph, read_waveform, delete_obj.
  set (gr := fresh (dom (heap s))).
  assert (heap s !! gr = None) as Hfresh1 by apply not_elem_of_dom, is_fresh.
  rewrite lookup_insert_eq. simpl.
  set (h1 := <[gr := _]> (heap s)).
  set (wf := fresh (dom h1)).
  assert (h1 !! wf = None) as Hfresh2 by apply not_elem_of_dom, is_fresh.
  rewrite lookup_insert_eq. simpl. rewrite Hsh.
  change (GetN (even (makeWf (getGraph u ring phi pol) false)) `min` to_int (sh 4))
    with (copied sh u phi ring pol).
  destruct (for_each_defined (seqZ 0 (copied sh u phi ring pol))
    (λ sample r,
       unchecked_set r (event, phi, AnitaRing.value ring, AnitaPol.value pol, sample)
         (GetY (even (makeWf (getGraph u ring phi pol) false)) sample))
    (λ r, shape r = sh) (array s)) as (r & -> & Hr); [|done|].
  { intros x t Hx%elem_of_seqZ Ht. unfold unchecked_set. rewrite Ht.
    rewrite decide_True; [by eauto|]. apply Hin. lia. }
  simpl. rewrite (delete_insert_id _ _ _ Hfresh2). subst h1.
  rewrite lookup_insert_eq. simpl. eauto.
Qed.

Lemma fill_event_defined_cells sh u event s :
  shape (array s) = sh →
  (∀ j, is_Some (written sh u event j) → in_shape sh j) →
  ∃ s', fill_event u event s = Some s' ∧ shape (array s') = sh.
Proof.
  intros Hsh Hin. unfold fill_event. rewrite Hsh.
  apply (for_each_defined _ _ (λ t, shape (array t) = sh)); [|done].
  intros phi t Hphi%elem_of_seqZ Ht.
  apply (for_each_defined _ _ (λ t, shape (array t) = sh)); [|done].
  intros ring t1 _ Ht1.
  apply (for_each_defined _ _ (λ t, shape (array t) = sh)); [|done].
  intros pol t2 _ Ht2.
  apply fill_channel_defined_cells; [done|].
  intros x Hx. apply Hin. rewrite written_channel by lia. by rewrite decide_True.
Qed.

Lemma event_loop_defined_cells sh n event evno this s :
  shape (array s) = sh →
  (∀ j, is_Some (batch sh (dataset_ this) event (attempted n (dataset_ this) (run_ this)) j)
        → in_shape sh j) →
  is_Some (event_loop n event evno this s).
Proof.
  revert event evno this s.
  induction n as [|n IH]; intros event evno this s Hsh Hin; simpl; [done|].
  cbn [attempted] in Hin.
  destruct (fill_event_defined_cells sh (useful (dataset_ this)) event s)
    as (s1 & -> & Hs1); [done| |].
  { intros j [y Hj]. apply Hin.
    destruct (decide (getCurrRun (AnitaDataset_next (dataset_ this)) ≠ run_ this));
      rewrite <- batch_succ; unfold over; rewrite Hj;
      by destruct (batch _ _ _ _ _). }
  simpl.
  destruct (decide (getCurrRun (AnitaDataset_next (dataset_ this)) ≠ run_ this))
    as [Hrun|Hrun]; [done|].
  apply IH; [done|]. simpl.
  intros j [y Hj]. apply Hin. rewrite <- batch_succ. unfold over. by rewrite Hj.
Qed.

(** The cells of a call are inside the shape exactly when the channels with
    something to copy are. *)
Lemma batch_in_shape sh d (n k : nat) :
  (k ≤ n)%nat → n = Z.to_nat (sh 0) →
  (∀ j, is_Some (batch sh d 0 k j) → in_shape sh j) ↔
  (∀ (e : nat) p ring pol,
     (e < k)%nat → 0 ≤ p < sh 1 →
     0 < copied sh (useful (cursor e d)) p ring pol →
     AnitaRing.value ring < sh 2 ∧ AnitaPol.value pol < sh 3
     ∧ copied sh (useful (cursor e d)) p ring pol ≤ sh 4).
Proof.
  intros Hk Hn. split.
  - intros Hin e p ring pol He Hp Hc.
    set (c := copied sh (useful (cursor e d)) p ring pol) in *.
    pose proof (Hin (Z.of_nat e, p, AnitaRing.value ring, AnitaPol.value pol, c - 1))
      as Hlast.
    rewrite batch_channel in Hlast by done. fold c in Hlast.
    rewrite decide_True in Hlast by lia.
    destruct Hlast as (_ & _ & Hr & Hq & Hx); [done|]. lia.
  - intros Hch [[[[e p] kr] kq] x] [y Hj].
    apply batch_Some in Hj as (i & ring & pol & -> & Hi & Hp & -> & -> & Hx & _).
    destruct (Hch i p ring pol) as (Hr & Hq & Hc); [done|done|lia|].
    pose proof (ring_value_range ring). pose proof (pol_value_range pol).
    simpl. lia.
Qed.

Lemma next_traced_in_shape this (waveforms : NumpyArray float) h :
  is_Some (next_traced this waveforms h) ↔
  ∀ j, is_Some (batch (shape waveforms) (dataset_ this) 0 (attempted_by this waveforms) j)
       → in_shape (shape waveforms) j.
Proof.
  split.
  - intros [[[[x v] this'] s'] Hcall].
    by apply next_traced_spec in Hcall as (_ & _ & _ & _ & _ & _ & _ & Hin).
  - intros Hin. unfold next_traced. by apply event_loop_defined_cells with (shape waveforms).
Qed.

Lemma next_is_Some this (waveforms : NumpyArray float) h :
  is_Some (next this waveforms h) ↔ is_Some (next_traced this waveforms h).
Proof.
  unfold next. destruct (next_traced this waveforms h) as [[[[x v] this'] s']|].
  - split; eauto.
  - split; intros [? ?]; done.
Qed.

(** X1: a call has defined behaviour exactly when, for every event it
    attempts and every phi-sector of the array, each channel whose waveform
    has a sample to copy has its ring and polarization index inside the array
    and copies no more samples than the sample axis holds; nothing else, in
    particular not the heap and not the contents of the array, matters. *)
Theorem next_defined_iff_channels_fit this (waveforms : NumpyArray float) h :
  let sh := shape waveforms in
  is_Some (next this waveforms h) ↔
  ∀ (e : nat) p ring pol,
    (e < attempted_by this waveforms)%nat → 0 ≤ p < sh 1 →
    let n := copied sh (useful (cursor e (dataset_ this))) p ring pol in
    0 < n → AnitaRing.value ring < sh 2 ∧ AnitaPol.value pol < sh 3 ∧ n ≤ sh 4.
Proof.
  intros sh. rewrite next_is_Some, next_traced_in_shape.
  apply (batch_in_shape sh (dataset_ this) (requested waveforms)); [|done].
  apply attempted_by_le.
Qed.

(** X2: the loops assume three rings and two polarizations without checking
    (lines 40-42): on an array with at least one event slot and one
    phi-sector but fewer than three rings or fewer than two polarizations, a
    call whose first event has a sample to copy in every channel of
    phi-sector 0 accesses the array outside its shape; its behaviour is
    undefined. *)
Theorem next_undefined_on_small_axes this (waveforms : NumpyArray float) h :
  1 ≤ shape waveforms 0 →
  1 ≤ shape waveforms 1 →
  shape waveforms 2 < 3 ∨ shape waveforms 3 < 2 →
  (∀ ring pol, 0 < copied (shape waveforms) (useful (dataset_ this)) 0 ring pol) →
  next this waveforms h = None.
Proof.
  intros HE HP Hsmall Hcopy.
  destruct (next this waveforms h) as [res|] eqn:Hnext; [exfalso|done].
  assert (is_Some (next_traced this waveforms h)) as Hdef
    by (apply next_is_Some; rewrite Hnext; eauto).
  rewrite next_traced_in_shape in Hdef.
  pose proof (proj1 (batch_in_shape (shape waveforms) (dataset_ this)
                      (requested waveforms) (attempted_by this waveforms)
                      (attempted_by_le this waveforms) eq_refl) Hdef) as Hfit.
  pose proof (attempted_by_pos this waveforms HE) as Hpos.
  destruct (Hfit 0%nat 0 kBottomRing kVertical) as (Hr & Hq & _);
    [lia|lia|apply Hcopy|].
  simpl in Hr, Hq. lia.
Qed.

(** X3: an array without phi-sectors, or with a sample axis of size 0, gives
    nothing to write, whatever its ring and polarization axes are: the call
    is defined and leaves every element as it was, yet it still reads the
    event numbers and advances the source by the events it attempts. *)
Theorem next_on_empty_axes this (waveforms : NumpyArray float) h :
  shape waveforms 1 ≤ 0 ∨ shape waveforms 4 = 0 →
  let d := dataset_ this in
  let k := attempted_by this waveforms in
  ∃ v this' s',
    next this waveforms h = Some (v, this', s')
    ∧ dataset_ this' = cursor k d
    ∧ (1 ≤ shape waveforms 0 →
       (1 ≤ k)%nat ∧ v = header_eventNumber (cursor (k - 1) d))
    ∧ shape (array s') = shape waveforms
    ∧ ∀ j, data (array s') j = data waveforms j.
Proof.
  intros Hempty d k.
  assert (∀ j, batch (shape waveforms) d 0 k j = None) as Hnone.
  { intros [[[[e p] kr] kq] x].
    destruct (batch _ _ _ _ _) as [y|] eqn:Hj; [exfalso|done].
    apply batch_Some in Hj as (i & ring & pol & _ & _ & Hp & _ & _ & Hx & _).
    destruct Hempty as [HP|HB]; [lia|].
    unfold copied in Hx. rewrite HB in Hx. change (to_int 0) with 0 in Hx. lia. }
  destruct (proj2 (next_traced_in_shape this waveforms h)) as [[[[x v] this'] s'] Hcall].
  { intros j [y Hj]. fold d k in Hj. by rewrite Hnone in Hj. }
  exists v, this', s'. split; [apply next_Some; eauto|].
  apply next_traced_spec in Hcall as (Hv & Hd & _ & _ & _ & Hshape & Hdata & _).
  fold d k in Hv, Hd, Hdata.
  refine (conj Hd (conj _ (conj Hshape _))).
  - intros HE. pose proof (attempted_by_pos this waveforms HE) as Hpos. fold k in Hpos.
    split; [done|]. destruct k as [|i]; [lia|].
    by replace (S i - 1)%nat with i by lia.
  - intros j. by rewrite Hdata, Hnone.
Qed.

(** ** Calls one after another, continued *)

Lemma cursor_add (m n : nat) d : cursor m (cursor n d) = cursor (n + m) d.
Proof. revert d. induction n as [|n IH]; intros d; [done|]. simpl. apply IH. Qed.

Lemma next_traced_tracks this (waveforms : NumpyArray float) h x v this' s' :
  next_traced this waveforms h = Some (x, v, this', s') →
  attempted_by this waveforms ≠ 0%nat → tracks this'.
Proof.
  intros (_ & Hd & Hx & Hr & _)%next_traced_spec Hk.
  unfold tracks. rewrite Hd, Hr. case_decide as Hc; [done|].
  destruct (decide (getCurrRun (cursor (attempted_by this waveforms) (dataset_ this))
                    = run_ this)) as [|Hne]; [done|].
  exfalso. by apply Hc, Hx.
Qed.

(** X4: consecutive calls take consecutive events.  When a call that
    attempted k1 events is followed by a call on the reader it left, slot e
    of the second array receives the event k1 + e advances from the original
    position, the second call returns the number of the last of them, and
    the source ends k1 + k2 advances from where it started: between the two
    calls no event is skipped and none is taken twice, also when the first
    call returned at a run boundary. *)
Theorem next_then_next this (w1 w2 : NumpyArray float) h1 h2 v1 this1 s1 v2 this2 s2 :
  next this w1 h1 = Some (v1, this1, s1) →
  next this1 w2 h2 = Some (v2, this2, s2) →
  let d := dataset_ this in
  let k1 := attempted_by this w1 in
  let k2 := attempted_by this1 w2 in
  dataset_ this2 = cursor (k1 + k2) d
  ∧ (1 ≤ shape w2 0 → v2 = header_eventNumber (cursor (k1 + k2 - 1) d))
  ∧ ∀ (e : nat) p ring pol sample,
      (e < k2)%nat → 0 ≤ p < shape w2 1 →
      let u := useful (cursor (k1 + e) d) in
      0 ≤ sample < copied (shape w2) u p ring pol →
      data (array s2) (Z.of_nat e, p, AnitaRing.value ring, AnitaPol.value pol, sample)
      = GetY (channel_waveform u p ring pol) sample.
Proof.
  intros [x1 Hcall1]%next_Some [x2 Hcall2]%next_Some d k1 k2.
  apply next_traced_spec in Hcall1 as (_ & Hd1 & _).
  pose proof (attempted_by_pos this1 w2) as Hpos. fold k2 in Hpos.
  apply next_traced_spec in Hcall2 as (Hv2 & Hd2 & _ & _ & _ & _ & Hdata & _).
  fold k2 in Hv2, Hd2, Hdata. fold d k1 in Hd1.
  rewrite Hd1 in Hv2, Hd2, Hdata. rewrite cursor_add in Hd2.
  refine (conj Hd2 (conj _ _)).
  - intros HE. specialize (Hpos HE). destruct k2 as [|i]; [lia|].
    rewrite Hv2, cursor_add. f_equal. f_equal. lia.
  - intros e p ring pol sample He Hp u Hs.
    rewrite Hdata, batch_channel by done. rewrite cursor_add. fold u.
    by rewrite decide_True.
Qed.

Lemma calls_single_slot_tracks this h (arrays : list (NumpyArray float)) evnos this' h' :
  Forall (λ w, shape w 0 = 1) arrays → arrays ≠ [] →
  calls this h arrays = Some (evnos, this', h') → tracks this'.
Proof.
  intros Hone. revert this h evnos this' h'.
  induction Hone as [|w arrays Hw Hone IH]; intros this h evnos this' h' Hne; [done|].
  simpl. destruct (next this w h) as [[[v this1] s1]|] eqn:Hnext; [|done].
  destruct (calls this1 (heap s1) arrays) as [[[vs this2] h2]|] eqn:Hrest; [|done].
  intros [= _ <- _].
  destruct arrays as [|w' arrays].
  - simpl in Hrest. injection Hrest as _ <- _.
    apply next_Some in Hnext as [x Hx].
    apply (next_traced_tracks _ _ _ _ _ _ _ Hx).
    pose proof (attempted_by_pos this w). lia.
  - by apply (IH this1 (heap s1) vs this2 h2).
Qed.

(** X5: a batch is as good as single calls.  A call on an array of E slots
    that attempts k events leaves the reader exactly as k calls on arrays of
    one slot each leave it, and returns the number that the last of those
    calls returns. *)
Theorem next_as_single_slot_calls this (waveforms : NumpyArray float) h x v this' s'
    (arrays : list (NumpyArray float)) h0 evnos this'' h'' :
  next_traced this waveforms h = Some (x, v, this', s') →
  Forall (λ w, shape w 0 = 1) arrays →
  length arrays = attempted_by this waveforms →
  calls this h0 arrays = Some (evnos, this'', h'') →
  this'' = this' ∧ (1 ≤ shape waveforms 0 → last evnos = Some v).
Proof.
  intros Hcall Hone Hlen Hcalls.
  pose proof (calls_single_slot _ _ _ _ _ _ Hone Hcalls) as (Hl & Hvs & Hd'').
  pose proof (next_traced_spec _ _ _ _ _ _ _ Hcall) as (Hv & Hd & _).
  rewrite Hlen in Hvs, Hd''.
  set (k := attempted_by this waveforms) in *.
  split.
  - destruct (decide (k = 0%nat)) as [Hk|Hk].
    + rewrite Hk in Hlen. destruct arrays; [|done].
      simpl in Hcalls. injection Hcalls as _ <- _.
      unfold next_traced in Hcall. unfold k, attempted_by in Hk.
      pose proof (attempted_pos (requested waveforms) (dataset_ this) (run_ this)) as Hp.
      destruct (requested waveforms) eqn:HE; [|by destruct Hp].
      unfold requested in HE. rewrite HE in Hcall. simpl in Hcall. congruence.
    + pose proof (next_traced_tracks _ _ _ _ _ _ _ Hcall Hk) as Ht.
      assert (tracks this'') as Ht''.
      { apply (calls_single_slot_tracks _ _ _ _ _ _ Hone) in Hcalls; [done|].
        intros ->. simpl in Hlen. lia. }
      unfold tracks in Ht, Ht''. destruct this' as [r' d'], this'' as [r'' d''].
      simpl in *. congruence.
  - intros HE. pose proof (attempted_by_pos this waveforms HE) as Hpos. fold k in Hpos.
    rewrite last_lookup, Hl, Hlen.
    destruct k as [|i]; [lia|]. simpl. rewrite Hvs by lia. by rewrite Hv.
Qed.

(** X6: the returned number, the [return] statement taken and the reader
    after a call depend on the array only through its number of event slots:
    two calls from the same reader on arrays with the same number of slots
    agree on them, whatever the other axes, the contents and the heap. *)
Theorem next_depends_on_slots_only this (w1 w2 : NumpyArray float) h1 h2
    x1 v1 this1 s1 x2 v2 this2 s2 :
  shape w1 0 = shape w2 0 →
  next_traced this w1 h1 = Some (x1, v1, this1, s1) →
  next_traced this w2 h2 = Some (x2, v2, this2, s2) →
  x1 = x2 ∧ v1 = v2 ∧ this1 = this2.
Proof.
  intros HE (Hv1 & Hd1 & Hx1 & Hr1 & _)%next_traced_spec
            (Hv2 & Hd2 & Hx2 & Hr2 & _)%next_traced_spec.
  assert (attempted_by this w2 = attempted_by this w1) as Hk
    by (unfold attempted_by, requested; by rewrite HE).
  rewrite Hk in *.
  assert (x1 = x2) as <-.
  { destruct x1, x2; try done.
    - symmetry. apply Hx2. by apply Hx1.
    - apply Hx1. by apply Hx2. }
  split; [done|]. split; [congruence|].
  destruct this1 as [r1 d1], this2 as [r2 d2]. simpl in *. congruence.
Qed.

(** X7: the stored run is an [unsigned int]: for a run argument in the range
    of [int] it lies in [0, 2^32), it is the argument plus 2^32 when the
    argument is negative, and converting it back to [int] gives the argument
    again, so that different arguments are stored as different runs. *)
Theorem stored_run_round_trip (run : Z) :
  - 2 ^ 31 ≤ run ≤ INT_MAX →
  let stored := run_ (WaveformReader_new run) in
  0 ≤ stored < 2 ^ 32
  ∧ (run < 0 → stored = run + 2 ^ 32)
  ∧ to_int stored = run
  ∧ ∀ run', - 2 ^ 31 ≤ run' ≤ INT_MAX →
            run_ (WaveformReader_new run') = stored → run' = run.
Proof.
  intros Hrun stored. unfold INT_MAX in *.
  assert (∀ z, - 2 ^ 31 ≤ z ≤ 2 ^ 31 - 1 →
               run_ (WaveformReader_new z) = if decide (z < 0) then z + 2 ^ 32 else z)
    as Hstored.
  { intros z Hz. simpl. unfold to_unsigned. case_decide.
    - symmetry. apply (Z.mod_unique_pos _ _ (-1)); lia.
    - apply Z.mod_small. lia. }
  assert (0 ≤ stored < 2 ^ 32) as Hrange.
  { unfold stored. rewrite Hstored by done. case_decide; lia. }
  assert (to_int stored = run) as Hback.
  { unfold stored. rewrite Hstored by done. unfold to_int. case_decide.
    - replace (run + 2 ^ 32 + 2 ^ 31) with (run + 2 ^ 31 + 1 * 2 ^ 32) by lia.
      rewrite Z.mod_add by lia. rewrite Z.mod_small by lia. lia.
    - rewrite Z.mod_small by lia. lia. }
  refine (conj Hrange (conj _ (conj Hback _))).
  - intros Hneg. unfold stored. rewrite Hstored by done. by rewrite decide_True.
  - intros run' Hrun' Heq. rewrite <- Hback, <- Heq.
    rewrite Hstored by done. unfold to_int. case_decide.
    + replace (run' + 2 ^ 32 + 2 ^ 31) with (run' + 2 ^ 31 + 1 * 2 ^ 32) by lia.
      rewrite Z.mod_add by lia. rewrite Z.mod_small by lia. lia.
    + rewrite Z.mod_small by lia. lia.
Qed.

(** X8: a call changes an element only by storing a sample that exists:
    every element of the array after the call either holds what it held
    before, or is addressed by an attempted event slot, a phi-sector of the
    array, a ring and a polarization, at a sample index that lies inside both
    the waveform of that channel and the sample axis, and then it holds that
    sample.  No sample is read at a negative index or past the end of a
    waveform. *)
Theorem next_stores_existing_samples this (waveforms : NumpyArray float) h v this' s'
    (e p kr kq sample : Z) :
  next this waveforms h = Some (v, this', s') →
  data (array s') (e, p, kr, kq, sample) = data waveforms (e, p, kr, kq, sample)
  ∨ ∃ (i : nat) ring pol,
      let wf := channel_waveform (useful (cursor i (dataset_ this))) p ring pol in
      e = Z.of_nat i ∧ (i < attempted_by this waveforms)%nat
      ∧ 0 ≤ p < shape waveforms 1
      ∧ kr = AnitaRing.value ring ∧ kq = AnitaPol.value pol
      ∧ 0 ≤ sample < GetN wf ∧ sample < shape waveforms 4
      ∧ data (array s') (e, p, kr, kq, sample) = GetY wf sample.
Proof.
  intros [x Hcall]%next_Some.
  apply next_traced_spec in Hcall as (_ & _ & _ & _ & _ & _ & Hdata & Hin).
  specialize (Hdata (e, p, kr, kq, sample)). specialize (Hin (e, p, kr, kq, sample)).
  destruct (batch _ _ _ _ _) as [y|] eqn:Hj; [right|by left].
  destruct Hin as (_ & _ & _ & _ & HB); [done|].
  apply batch_Some in Hj as (i & ring & pol & He & Hi & Hp & Hr & Hq & Hx & Hy).
  exists i, ring, pol.
  pose proof (copied_le_samples (shape waveforms) (useful (cursor i (dataset_ this)))
                p ring pol).
  simpl in *. subst y. repeat split; try done; lia.
Qed.

Lemma header_increasing d (i n bound : nat) :
  (∀ m, (S m < bound)%nat →
        header_eventNumber (cursor m d) < header_eventNumber (cursor (S m) d)) →
  (i + S n < bound)%nat →
  header_eventNumber (cursor i d) < header_eventNumber (cursor (i + S n) d).
Proof.
  intros Hinc. induction n as [|n IH]; intros Hbound.
  - replace (i + 1)%nat with (S i) in * by lia. by apply Hinc.
  - replace (i + S (S n))%nat with (S (i + S n)) in * by lia.
    specialize (Hinc (i + S n)%nat Hbound). specialize (IH ltac:(lia)). lia.
Qed.

(** X9: the integer returned is there for the caller to check its progress
    (lines 26-28).  Two consecutive calls, each on an array with at least one
    slot, attempt k1 and then k2 events.  When the event numbers of these
    k1 + k2 events increase from each to the next, the number the second call
    returns is strictly greater than the number the first call returned; no
    assumption is made on the events of the source after them. *)
Theorem next_returns_increase this (w1 w2 : NumpyArray float) h1 h2
    v1 this1 s1 v2 this2 s2 :
  1 ≤ shape w1 0 → 1 ≤ shape w2 0 →
  next this w1 h1 = Some (v1, this1, s1) →
  next this1 w2 h2 = Some (v2, this2, s2) →
  (∀ i, (S i < attempted_by this w1 + attempted_by this1 w2)%nat →
        header_eventNumber (cursor i (dataset_ this))
        < header_eventNumber (cursor (S i) (dataset_ this))) →
  v1 < v2.
Proof.
  intros HE1 HE2 [x1 Hcall1]%next_Some [x2 Hcall2]%next_Some Hinc.
  pose proof (attempted_by_pos this w1 HE1) as Hk1.
  pose proof (attempted_by_pos this1 w2 HE2) as Hk2.
  apply next_traced_spec in Hcall1 as (Hv1 & Hd1 & _).
  apply next_traced_spec in Hcall2 as (Hv2 & _).
  rewrite Hd1 in Hv2.
  destruct (attempted_by this w1) as [|i1]; [lia|].
  destruct (attempted_by this1 w2) as [|i2]; [lia|].
  rewrite Hv1, Hv2, cursor_add.
  replace (S i1 + i2)%nat with (i1 + S i2)%nat by lia.
  apply (header_increasing _ _ _ (S i1 + S i2)); [exact Hinc|lia].
Qed.

End Further.

(** * The claims on the synthetic library *)

Section Examples.

Import Synth.

(** Closed arithmetic facts, by evaluation. *)
Ltac evaluated :=
  vm_compute;
  repeat match goal with |- _ ∧ _ => split end;
  first [ reflexivity | let Hc := fresh in intros Hc; discriminate Hc ].

Lemma sentinel_well_shaped E B : 0 ≤ B → well_shaped (shape (sentinel E B)).
Proof. intros HB. unfold well_shaped. simpl. lia. Qed.

Lemma sentinel_call E B this :
  0 ≤ B → ∃ x v this' s', next_traced this (sentinel E B) no_objects = Some (x, v, this', s').
Proof.
  intros HB.
  destruct (next_traced_defined this (sentinel E B) no_objects (sentinel_well_shaped E B HB))
    as [[[[x v] this'] s'] Hcall].
  eauto.
Qed.

Lemma sentinel_next E B this :
  0 ≤ B → ∃ v this' s', next this (sentinel E B) no_objects = Some (v, this', s').
Proof.
  intros HB.
  destruct (next_defined this (sentinel E B) no_objects (sentinel_well_shaped E B HB))
    as [[[v this'] s'] Hcall].
  eauto.
Qed.

(** At e0 with three slots the call returns 101, the number of e1. *)
Lemma next_returns_last_attempted_witness :
  fst <$> (fst <$> next at_e0 (sentinel 3 4) no_objects) = Some 101.
Proof.
  destruct (next_returns_last_attempted at_e0 (sentinel 3 4) no_objects) as [_ Hret];
    [evaluated|].
  destruct (sentinel_call 3 4 at_e0) as (x & v & this' & s' & Hcall); [evaluated|].
  destruct (Hret x v this' s' Hcall) as (Hnext & _ & Hv & _).
  rewrite Hnext. clear Hnext Hcall Hret. cbn [fmap option_fmap option_map fst].
  rewrite Hv. evaluated.
Defined.

(** With no slot the call returns 0 and the reader stays at e0. *)
Lemma next_no_slots_witness :
  next at_e0 (sentinel 0 4) no_objects = Some (0, at_e0, mkState (sentinel 0 4) no_objects).
Proof.
  apply (next_no_slots at_e0 (sentinel 0 4) no_objects). reflexivity.
Defined.

(** Runs 7 and 8: 101 is returned, the stored run is 8, slot 1 holds e1 and
    slot 2 the sentinel. *)
Lemma next_run_boundary_witness :
  (λ '(v, this', s'),
     (v, run_ this', data (array s') (1, 0, 2, 1, 1), data (array s') (2, 0, 2, 1, 1)))
    <$> next at_e0 (sentinel 3 4) no_objects
  = Some (101, 8, 1010211, -1).
Proof.
  destruct (next_run_boundary at_e0 (sentinel 3 4) no_objects 7 8) as [_ Hspec];
    [evaluated|reflexivity|reflexivity|reflexivity|reflexivity|reflexivity|].
  destruct (sentinel_call 3 4 at_e0) as (x & v & this' & s' & Hcall); [evaluated|].
  destruct (Hspec x v this' s' Hcall) as (_ & Hv & Hrun & _ & Hslots & Hlast).
  assert (next at_e0 (sentinel 3 4) no_objects = Some (v, this', s')) as ->
    by (apply next_Some; exists x; exact Hcall).
  clear Hcall Hspec.
  assert (data (array s') (1, 0, 2, 1, 1) = 1010211) as Hslot1.
  { apply (Hslots 1%nat 0 kBottomRing kVertical 1); [lia|evaluated|evaluated]. }
  cbn [fmap option_fmap option_map]. rewrite Hv, Hrun, Hlast, Hslot1. reflexivity.
Defined.

(** C3, the code at the failing input.  The claim is that [next] writes
    exactly the first min(S,B) samples of a channel's waveform.  On a sample
    axis of B = 2^31 elements, slot 0 is processed, phi-sector 0 is in the
    array and the waveform has S = 2 samples, so that min(S,B) is 2; line 62
    casts B to [int], which gives -2^31, and the loop of line 68 copies
    nothing: the element at sample 0 of the first channel still holds the
    sentinel and not the sample 1000000. *)
Lemma huge_sample_axis_is_not_copied :
  let waveforms := sentinel 1 (2 ^ 31) in
  let wf := channel_waveform (useful (dataset_ at_e0)) 0 kTopRing kHorizontal in
  attempted_by at_e0 waveforms = 1%nat
  ∧ shape waveforms 1 = 1
  ∧ Z.min (GetN wf) (shape waveforms 4) = 2
  ∧ GetY wf 0 = 1000000
  ∧ (λ '(_, _, s'), data (array s') (0, 0, 0, 0, 0)) <$> next at_e0 waveforms no_objects
    = Some (-1).
Proof. evaluated. Qed.

(** With four samples in the axis, a size that fits an [int], the two samples
    of the waveform are copied and the two elements after them hold the
    sentinel. *)
Lemma next_copies_min_samples_witness :
  (λ '(_, _, s'), (λ sample, data (array s') (1, 0, 1, 0, sample)) <$> [0; 1; 2; 3])
    <$> next at_e0 (sentinel 3 4) no_objects
  = Some [1010100; 1010101; -1; -1].
Proof.
  destruct (sentinel_next 3 4 at_e0) as (v & this' & s' & Hcall); [evaluated|].
  destruct (next_copies_min_samples at_e0 (sentinel 3 4) no_objects v this' s'
              1%nat 0 kMiddleRing kHorizontal) as [Hin Hout];
    [evaluated|exact Hcall|vm_compute; lia|evaluated|].
  rewrite Hcall. clear Hcall.
  assert (data (array s') (1, 0, 1, 0, 0) = 1010100) as H0 by (apply (Hin 0); evaluated).
  assert (data (array s') (1, 0, 1, 0, 1) = 1010101) as H1 by (apply (Hin 1); evaluated).
  assert (data (array s') (1, 0, 1, 0, 2) = -1) as H2.
  { apply (Hout 2). vm_compute. intros [_ Hc]. discriminate Hc. }
  assert (data (array s') (1, 0, 1, 0, 3) = -1) as H3.
  { apply (Hout 3). vm_compute. intros [_ Hc]. discriminate Hc. }
  cbn [fmap option_fmap option_map list_fmap]. rewrite H0, H1, H2, H3. reflexivity.
Defined.

(** The elements after the copied samples and those of the slot that was not
    reached hold the sentinel. *)
Lemma next_frame_witness :
  (λ '(_, _, s'),
     (shape (array s') 4, data (array s') (0, 0, 0, 0, 2), data (array s') (2, 0, 0, 0, 0)))
    <$> next at_e0 (sentinel 3 4) no_objects
  = Some (4, -1, -1).
Proof.
  destruct (sentinel_next 3 4 at_e0) as (v & this' & s' & Hcall); [evaluated|].
  destruct (next_frame at_e0 (sentinel 3 4) no_objects v this' s' Hcall)
    as (Hshape & Hchannel & Hslots & _).
  rewrite Hcall. clear Hcall.
  assert (data (array s') (0, 0, 0, 0, 2) = -1) as H0.
  { apply (Hchannel 0%nat 0 kTopRing kHorizontal 2). evaluated. }
  assert (data (array s') (2, 0, 0, 0, 0) = -1) as H2.
  { apply (Hslots 2 0 0 0 0). evaluated. }
  cbn [fmap option_fmap option_map]. rewrite Hshape, H0, H2. reflexivity.
Defined.

(** The six channels of slot 0: the hundreds give the ring, the tens the
    polarization. *)
Lemma next_ring_pol_order_witness :
  (λ '(_, _, s'),
     (λ '(kr, kq), data (array s') (0, 0, kr, kq, 0))
       <$> [(0, 0); (0, 1); (1, 0); (1, 1); (2, 0); (2, 1)])
    <$> next at_e0 (sentinel 3 4) no_objects
  = Some [1000000; 1000010; 1000100; 1000110; 1000200; 1000210].
Proof.
  destruct (sentinel_next 3 4 at_e0) as (v & this' & s' & Hcall); [evaluated|].
  destruct (next_ring_pol_order at_e0 (sentinel 3 4) no_objects v this' s' 0%nat 0 0 Hcall)
    as (H00 & H01 & H10 & H11 & H20 & H21); [vm_compute; lia|evaluated|].
  rewrite Hcall. clear Hcall.
  assert (data (array s') (0, 0, 0, 0, 0) = 1000000) as E00 by (apply H00; evaluated).
  assert (data (array s') (0, 0, 0, 1, 0) = 1000010) as E01 by (apply H01; evaluated).
  assert (data (array s') (0, 0, 1, 0, 0) = 1000100) as E10 by (apply H10; evaluated).
  assert (data (array s') (0, 0, 1, 1, 0) = 1000110) as E11 by (apply H11; evaluated).
  assert (data (array s') (0, 0, 2, 0, 0) = 1000200) as E20 by (apply H20; evaluated).
  assert (data (array s') (0, 0, 2, 1, 0) = 1000210) as E21 by (apply H21; evaluated).
  cbn [fmap option_fmap option_map list_fmap].
  rewrite E00, E01, E10, E11, E20, E21. reflexivity.
Defined.

(** Two events remain in run 7 and the array has two slots: the call returns
    101 from the [return] of the run check and the stored run is 8. *)
Lemma exact_fit_crosses_the_run :
  let d := dataset_ at_e0 in
  run_ at_e0 = 7
  ∧ getCurrRun d = 7 ∧ getCurrRun (cursor 1 d) = 7 ∧ getCurrRun (cursor 2 d) = 8
  ∧ shape (sentinel 2 4) 0 = 2
  ∧ (λ '(x, v, this', _), (x, v, run_ this')) <$> next_traced at_e0 (sentinel 2 4) no_objects
    = Some (ReturnRunChanged, 101, 8).
Proof. evaluated. Qed.

(** The same call through the amended claim. *)
Lemma next_exact_fit_witness :
  (λ '(x, v, this', _), (x, v, run_ this')) <$> next_traced at_e0 (sentinel 2 4) no_objects
  = Some (ReturnRunChanged, 101, 8).
Proof.
  destruct (sentinel_call 2 4 at_e0) as (x & v & this' & s' & Hcall); [evaluated|].
  destruct (next_exact_fit at_e0 (sentinel 2 4) no_objects x v this' s')
    as (_ & Hv & _ & _ & Hcross); [evaluated| |exact Hcall|].
  { intros [|[|i]] Hi; [reflexivity|reflexivity|]. vm_compute in Hi. lia. }
  destruct Hcross as [-> Hrun]; [evaluated|].
  rewrite Hcall. clear Hcall. cbn [fmap option_fmap option_map].
  rewrite Hv, Hrun. reflexivity.
Defined.

(** Four calls on one slot each return 100, 101, 102, 103. *)
Lemma next_single_slot_calls_witness :
  fst <$> (fst <$> calls at_e0 no_objects (replicate 4 (sentinel 1 4)))
  = Some [100; 101; 102; 103].
Proof.
  destruct (next_single_slot_calls at_e0 no_objects [100; 101; 102; 103]
              (replicate 4 (sentinel 1 4))) as (Hdef & Hcalls & _).
  { intros [|[|[|[|i]]]] e [= <-]; reflexivity. }
  { reflexivity. }
  { repeat constructor. }
  destruct Hdef as [[[evnos this'] h'] Hrun].
  { repeat constructor; evaluated. }
  destruct (Hcalls evnos this' h' Hrun) as [-> _].
  rewrite Hrun. reflexivity.
Defined.

(** A reader made for run 7 stores 7; after the call across the boundary the
    stored run has changed and is the run of the source. *)
Lemma stored_run_invariant_witness :
  run_ (WaveformReader_new 7) = 7
  ∧ (λ '(_, _, this', _), bool_decide (run_ this' ≠ 7 ∧ run_ this' = getCurrRun (dataset_ this')))
      <$> next_traced at_e0 (sentinel 3 4) no_objects
    = Some true.
Proof.
  destruct (sentinel_call 3 4 at_e0) as (x & v & this' & s' & Hcall); [evaluated|].
  destruct (stored_run_invariant at_e0 (sentinel 3 4) no_objects x v this' s' Hcall)
    as (Hnew & Hiff & Hchanged & _).
  rewrite Hcall. clear Hcall. split.
  - apply (Hnew 7). evaluated.
  - assert (run_ this' ≠ 7) as Hne.
    { apply Hiff. exists 2%nat. split; [vm_compute; lia|evaluated]. }
    cbn [fmap option_fmap option_map]. f_equal. apply bool_decide_eq_true.
    split; [exact Hne|]. by apply Hchanged.
Defined.

End Examples.

(** * The further properties on the synthetic library *)

Section FurtherExamples.

Import Synth.

Ltac computed :=
  vm_compute;
  repeat match goal with |- _ ∧ _ => split end;
  first [ reflexivity | let Hc := fresh in intros Hc; discriminate Hc ].

Lemma shaped_next E P R Q B this :
  3 ≤ R → 2 ≤ Q → 0 ≤ B →
  ∃ v this' s', next this (shaped E P R Q B) no_objects = Some (v, this', s').
Proof.
  intros HR HQ HB.
  destruct (next_defined this (shaped E P R Q B) no_objects) as [[[v this'] s'] Hcall];
    [by repeat split|eauto].
Qed.

Lemma shaped_call E P R Q B this :
  3 ≤ R → 2 ≤ Q → 0 ≤ B →
  ∃ x v this' s', next_traced this (shaped E P R Q B) no_objects = Some (x, v, this', s').
Proof.
  intros HR HQ HB.
  destruct (next_traced_defined this (shaped E P R Q B) no_objects)
    as [[[[x v] this'] s'] Hcall]; [by repeat split|eauto].
Qed.

(** Two rings only: the bottom ring of the first event falls outside. *)
Lemma next_undefined_on_small_axes_witness :
  next at_e0 (shaped 1 1 2 2 4) no_objects = None.
Proof.
  apply next_undefined_on_small_axes; [computed|computed|left; computed|].
  intros ring pol. destruct ring, pol; computed.
Defined.

(** No phi-sector, one ring, one polarization: both events of run 7 are
    consumed, 101 is returned and the elements hold the sentinel. *)
Lemma next_on_empty_axes_witness :
  (λ '(v, this', s'), (v, position (dataset_ this'), data (array s') (0, 0, 0, 0, 0)))
    <$> next at_e0 (shaped 2 0 1 1 4) no_objects
  = Some (101, 2%nat, -1).
Proof.
  destruct (next_on_empty_axes at_e0 (shaped 2 0 1 1 4) no_objects)
    as (v & this' & s' & Hnext & Hd & Hv & _ & Hdata); [left; computed|].
  rewrite Hnext. clear Hnext. cbn [fmap option_fmap option_map].
  destruct Hv as [_ ->]; [computed|]. rewrite Hd, Hdata. computed.
Defined.

(** After the call that stopped at the boundary of run 7, a call on one slot
    takes 102, the first event of run 8. *)
Lemma next_then_next_witness :
  (λ '(_, this1, _),
     (λ '(v2, _, s2), (v2, data (array s2) (0, 0, 0, 0, 0)))
       <$> next this1 (sentinel 1 4) no_objects)
    <$> next at_e0 (sentinel 3 4) no_objects
  = Some (Some (102, 1020000)).
Proof.
  destruct (shaped_next 3 1 3 2 4 at_e0) as (v1 & this1 & s1 & Hn1); [lia|lia|lia|].
  destruct (shaped_next 1 1 3 2 4 this1) as (v2 & this2 & s2 & Hn2); [lia|lia|lia|].
  change (shaped 3 1 3 2 4) with (sentinel 3 4) in Hn1.
  change (shaped 1 1 3 2 4) with (sentinel 1 4) in Hn2.
  assert (attempted_by this1 (sentinel 1 4) = 1%nat) as Hk2.
  { unfold attempted_by, requested. change (Z.to_nat (shape (sentinel 1 4) 0)) with 1%nat.
    cbn [attempted]. by case_decide. }
  destruct (next_then_next at_e0 (sentinel 3 4) (sentinel 1 4) no_objects no_objects
              v1 this1 s1 v2 this2 s2 Hn1 Hn2) as (_ & Hv & Hslots).
  rewrite Hn1. cbn [fmap option_fmap option_map]. rewrite Hn2. clear Hn1 Hn2.
  cbn [fmap option_fmap option_map].
  rewrite Hk2 in Hv, Hslots.
  rewrite Hv by computed.
  assert (data (array s2) (0, 0, 0, 0, 0) = 1020000) as ->.
  { apply (Hslots 0%nat 0 kTopRing kHorizontal 0); [lia|computed|computed]. }
  computed.
Defined.

(** The call on three slots attempts two events and leaves the reader as two
    calls on one slot do. *)
Lemma next_as_single_slot_calls_witness :
  (λ '(_, v, this', _), (Some v, this')) <$> next_traced at_e0 (sentinel 3 4) no_objects
  = (λ '(evnos, this2, _), (last evnos, this2))
      <$> calls at_e0 no_objects (replicate 2 (sentinel 1 4)).
Proof.
  destruct (shaped_call 3 1 3 2 4 at_e0) as (x & v & this' & s' & Hcall); [lia|lia|lia|].
  change (shaped 3 1 3 2 4) with (sentinel 3 4) in Hcall.
  destruct (calls_defined at_e0 no_objects (replicate 2 (sentinel 1 4)))
    as [[[evnos this2] h2] Hcalls]; [repeat constructor; computed|].
  destruct (next_as_single_slot_calls at_e0 (sentinel 3 4) no_objects x v this' s'
              (replicate 2 (sentinel 1 4)) no_objects evnos this2 h2 Hcall)
    as [-> Hlast]; [repeat constructor|computed|exact Hcalls|].
  rewrite Hcall, Hcalls. cbn [fmap option_fmap option_map].
  rewrite Hlast by computed. reflexivity.
Defined.

(** Three slots with other phi, ring, polarization and sample axes: the same
    number, the same [return] and the same reader. *)
Lemma next_depends_on_slots_only_witness :
  (λ '(x, v, this', _), (x, v, this')) <$> next_traced at_e0 (sentinel 3 4) no_objects
  = (λ '(x, v, this', _), (x, v, this')) <$> next_traced at_e0 (shaped 3 2 4 3 1) no_objects.
Proof.
  destruct (shaped_call 3 1 3 2 4 at_e0) as (x1 & v1 & t1 & s1 & Hc1); [lia|lia|lia|].
  change (shaped 3 1 3 2 4) with (sentinel 3 4) in Hc1.
  destruct (shaped_call 3 2 4 3 1 at_e0) as (x2 & v2 & t2 & s2 & Hc2); [lia|lia|lia|].
  destruct (next_depends_on_slots_only at_e0 (sentinel 3 4) (shaped 3 2 4 3 1)
              no_objects no_objects x1 v1 t1 s1 x2 v2 t2 s2) as (-> & -> & ->);
    [reflexivity|exact Hc1|exact Hc2|].
  rewrite Hc1, Hc2. reflexivity.
Defined.

(** The run argument -1 is stored as 2^32 - 1 and read back as -1. *)
Lemma stored_run_round_trip_witness :
  run_ (WaveformReader_new (-1)) = 4294967295
  ∧ to_int (run_ (WaveformReader_new (-1))) = -1.
Proof.
  destruct (stored_run_round_trip (-1)) as (_ & Hneg & Hback & _); [computed|].
  split; [exact (Hneg eq_refl)|exact Hback].
Defined.

(** The waveforms have two samples: sample 3 of a channel holds the sentinel. *)
Lemma next_stores_existing_samples_witness :
  (λ '(_, _, s'), data (array s') (0, 0, 0, 0, 3)) <$> next at_e0 (sentinel 3 4) no_objects
  = Some (-1).
Proof.
  destruct (shaped_next 3 1 3 2 4 at_e0) as (v & this' & s' & Hnext); [lia|lia|lia|].
  change (shaped 3 1 3 2 4) with (sentinel 3 4) in Hnext.
  destruct (next_stores_existing_samples at_e0 (sentinel 3 4) no_objects v this' s'
              0 0 0 0 3 Hnext) as [Hsame|(i & ring & pol & Hi & _ & _ & _ & _ & Hs & _)];
    rewrite Hnext; clear Hnext; cbn [fmap option_fmap option_map].
  - rewrite Hsame. reflexivity.
  - exfalso. destruct i as [|i]; [|discriminate Hi].
    destruct Hs as [_ Hs]. vm_compute in Hs. discriminate Hs.
Defined.

(** From e0 a call on two slots returns 101 at the boundary of run 7, and the
    call on one slot after it returns 102; the source repeats 103 further
    on, past the three events the two calls attempt. *)
Lemma next_returns_increase_witness :
  (λ '(v1, this1, _),
     (λ '(v2, _, _), (v1, v2, bool_decide (v1 < v2)))
       <$> next this1 (sentinel 1 4) no_objects)
    <$> next at_e0 (sentinel 2 4) no_objects
  = Some (Some (101, 102, true)).
Proof.
  destruct (shaped_call 2 1 3 2 4 at_e0) as (x1 & v1 & this1 & s1 & Hc1); [lia|lia|lia|].
  change (shaped 2 1 3 2 4) with (sentinel 2 4) in Hc1.
  assert (next at_e0 (sentinel 2 4) no_objects = Some (v1, this1, s1)) as Hn1
    by (apply next_Some; exists x1; exact Hc1).
  destruct (shaped_call 1 1 3 2 4 this1) as (x2 & v2 & this2 & s2 & Hc2); [lia|lia|lia|].
  change (shaped 1 1 3 2 4) with (sentinel 1 4) in Hc2.
  assert (next this1 (sentinel 1 4) no_objects = Some (v2, this2, s2)) as Hn2
    by (apply next_Some; exists x2; exact Hc2).
  assert (attempted_by this1 (sentinel 1 4) = 1%nat) as Hk2.
  { unfold attempted_by, requested. change (Z.to_nat (shape (sentinel 1 4) 0)) with 1%nat.
    cbn [attempted]. by case_decide. }
  pose proof (next_returns_increase at_e0 (sentinel 2 4) (sentinel 1 4)
                no_objects no_objects v1 this1 s1 v2 this2 s2) as Hlt.
  apply next_traced_spec in Hc1 as (Hv1 & Hd1 & _).
  apply next_traced_spec in Hc2 as (Hv2 & _).
  rewrite Hk2, Hd1 in Hv2.
  rewrite Hn1. cbn [fmap option_fmap option_map]. rewrite Hn2.
  cbn [fmap option_fmap option_map]. f_equal. f_equal.
  assert (v1 < v2) as Hlt12.
  { apply Hlt; [computed|computed|exact Hn1|exact Hn2|].
    rewrite Hk2. intros [|[|i]] Hi; [computed|computed|].
    vm_compute in Hi. lia. }
  clear Hn1 Hn2 Hlt Hd1.
  rewrite (bool_decide_eq_true_2 _ Hlt12). rewrite Hv1, Hv2. computed.
Defined.

End FurtherExamples.
